(** * Minesweeper knowledge engine: a shallow embedding of [minesweeper.py]

    The development follows the Python source class by class.  A cell is a
    pair of Python integers, a Python [set] of cells is a [gset], the
    knowledge list is a [list] of sentences addressed by position (the
    sentences are mutated in place while the list itself only grows), and a
    call that can raise returns a [result].  Output written with [print] is
    not part of the model. *)

From stdpp Require Import gmap list.

Local Open Scope Z_scope.

(** ** Python values *)

(** A board coordinate [(i, j)]; Python integers are unbounded. *)
Abbreviation Cell := (Z * Z)%type.

(** The exceptions the modelled code can raise. *)
Inductive exn : Set :=
| TypeError
| AttributeError
| KeyError.

(** Outcome of a call: it returns a value, or it raises. *)
Inductive result (A : Type) : Type :=
| Ok (a : A)
| Raise (e : exn).
Arguments Ok {A} a.
Arguments Raise {A} e.

#[global] Instance result_ret : MRet result := λ A a, Ok a.
#[global] Instance result_bind : MBind result := λ A B f m,
  match m with
  | Ok a => f a
  | Raise e => Raise e
  end.

(** A [for] loop whose body may raise: the first exception ends the loop. *)
Fixpoint for_each {A S : Type} (body : A → S → result S) (l : list A) (st : S)
  : result S :=
  match l with
  | [] => Ok st
  | x :: l' => st' ← body x st; for_each body l' st'
  end.

(** [len(s)] of a set. *)
Definition len (s : gset Cell) : Z := Z.of_nat (size s).

(** [s.remove(x)]: raises [KeyError] when [x] is not a member. *)
Definition set_remove (x : Cell) (s : gset Cell) : result (gset Cell) :=
  if decide (x ∈ s) then Ok (s ∖ {[x]}) else Raise KeyError.

(** [s.pop()]: removes and returns some member, [KeyError] on the empty set.
    Python leaves the choice open; the model takes the first element of
    [elements s], and the theorems below use only that the cell returned is a
    member of [s]. *)
Definition set_pop (s : gset Cell) : result (Cell * gset Cell) :=
  match elements s with
  | [] => Raise KeyError
  | x :: _ => Ok (x, s ∖ {[x]})
  end.

(** [t.pop()] on a tuple: tuples have no such attribute. *)
Definition tuple_pop (t : Cell) : result Cell := Raise AttributeError.

(** [set(l)] for a list [l] of sets: every element is hashed on insertion and
    a [set] is unhashable, so only the empty list goes through. *)
Definition set_of_sets (l : list (gset Cell)) : result (gset Cell) :=
  match l with
  | [] => Ok ∅
  | _ :: _ => Raise TypeError
  end.

(** ** class Sentence *)

Module Sentence.

Record t : Type := mk { cells : gset Cell; count : Z }.

(** [Sentence.__init__(cells, count)]; [set(cells)] copies its argument. *)
Definition init (cs : gset Cell) (n : Z) : t := mk cs n.

(** [known_mines], lines 104-111. *)
Definition known_mines (s : t) : gset Cell :=
  let safe_cells : gset Cell := ∅ in
  if decide (count s = 0) then cells s else safe_cells.

(** [known_safes], lines 114-121. *)
Definition known_safes (s : t) : gset Cell :=
  let mine_cells : gset Cell := ∅ in
  if decide (0 < count s ∧ count s = len (cells s)) then cells s
  else mine_cells.

(** [mark_mine], lines 124-131. *)
Definition mark_mine (cell : Cell) (s : t) : t :=
  if decide (cell ∈ cells s)
  then mk (cells s ∖ {[cell]}) (count s - 1)
  else s.

(** [mark_safe], lines 133-139. *)
Definition mark_safe (cell : Cell) (s : t) : t :=
  if decide (cell ∈ cells s)
  then mk (cells s ∖ {[cell]}) (count s)
  else s.

(** The well-formedness condition of the data model. *)
Definition wf (s : t) : Prop := 0 ≤ count s ≤ len (cells s).

End Sentence.

(** ** class MinesweeperAI *)

Module MinesweeperAI.

Record t : Type := mk {
  height : Z;
  width : Z;
  moves_made : gset Cell;
  mines : gset Cell;
  safes : gset Cell;
  knowledge : list Sentence.t
}.

(** [MinesweeperAI.__init__(height, width)], lines 147-161. *)
Definition init (h w : Z) : t := mk h w ∅ ∅ ∅ [].

Definition set_knowledge (k : list Sentence.t) (ai : t) : t :=
  mk (height ai) (width ai) (moves_made ai) (mines ai) (safes ai) k.

(** In-place mutation of the sentence object stored at position [i]. *)
Definition set_sentence (i : nat) (s : Sentence.t) (ai : t) : t :=
  set_knowledge (<[i:=s]> (knowledge ai)) ai.

(** [for x in cells: body(x)] over a set, the body updating the engine. *)
Definition for_cells (body : Cell → t → t) (cs : gset Cell) (ai : t) : t :=
  foldl (λ a c, body c a) ai (elements cs).

(** [for tmp_sentence in self.knowledge: body]: the list iterator walks the
    positions [0 .. len-1]; the body sees the sentence as it is when its turn
    comes and may mutate the whole engine. *)
Definition for_sentences (body : nat → Sentence.t → t → result t) (ai : t)
  : result t :=
  for_each
    (λ i a, match knowledge a !! i with
            | Some s => body i s a
            | None => Ok a
            end)
    (seq 0 (length (knowledge ai))) ai.

(** [mark_mine], lines 163-171. *)
Definition mark_mine (cell : Cell) (ai : t) : t :=
  mk (height ai) (width ai)
     (moves_made ai ∪ {[cell]})
     (mines ai ∪ {[cell]})
     (safes ai)
     (map (Sentence.mark_mine cell) (knowledge ai)).

(** [mark_safe], lines 173-180. *)
Definition mark_safe (cell : Cell) (ai : t) : t :=
  mk (height ai) (width ai)
     (moves_made ai)
     (mines ai)
     (safes ai ∪ {[cell]})
     (map (Sentence.mark_safe cell) (knowledge ai)).

(** The list of all [(i, j)] with [i in range(h)] and [j in range(w)], in the
    order the nested loops append them. *)
Definition board_cells (h w : Z) : list Cell :=
  concat (map (λ i, map (λ j, (i, j)) (seqZ 0 w)) (seqZ 0 h)).

(** [get_neighboring_cells], lines 335-379.  The two attributes the method
    assigns on [self] are rebuilt from scratch at every call before they are
    read, so they are locals here. *)
Definition get_neighboring_cells (cell : Cell) (ai : t) : gset Cell :=
  let virtual_board_cells := board_cells (height ai) (width ai) in
  let add (c : Cell) (ns : gset Cell) : gset Cell :=
    if decide (c ∈ virtual_board_cells) then ns ∪ {[c]} else ns in
  let ns : gset Cell := ∅ in
  let ns := add (cell.1 - 1, cell.2) ns in
  let ns := add (cell.1 + 1, cell.2) ns in
  let ns := add (cell.1, cell.2 - 1) ns in
  let ns := add (cell.1 - 1, cell.2 - 1) ns in
  let ns := add (cell.1 + 1, cell.2 - 1) ns in
  let ns := add (cell.1, cell.2 + 1) ns in
  let ns := add (cell.1 - 1, cell.2 + 1) ns in
  let ns := add (cell.1 + 1, cell.2 + 1) ns in
  ns.

(** [check_which_neighbor_cells_are_safe], lines 382-389. *)
Definition check_which_neighbor_cells_are_safe (cell : Cell) (count : Z) (ai : t)
  : gset Cell :=
  let neighboring_cells_that_are_safe : gset Cell := ∅ in
  let neighboring_cells := get_neighboring_cells cell ai in
  let neighboring_cells_that_are_mines := neighboring_cells ∩ mines ai in
  if decide (count = len neighboring_cells_that_are_mines)
  then neighboring_cells ∖ neighboring_cells_that_are_mines
  else neighboring_cells_that_are_safe.

(** [remove_mine_from_sentences_with_counts_greater_than_1], lines 393-399. *)
Definition remove_mine_from_sentences_with_counts_greater_than_1
  (cell : Cell) (ai : t) : result (bool * t) :=
  ai' ← for_sentences
          (λ i s a,
             if decide (1 < Sentence.count s) then
               if decide (cell ∈ Sentence.cells s) then
                 cs ← set_remove cell (Sentence.cells s);
                 Ok (set_sentence i (Sentence.mk cs (Sentence.count s - 1)) a)
               else Ok a
             else Ok a)
          ai;
  Ok (true, ai').

(** *** [add_knowledge], lines 187-278, block by block *)

(** The sentence built in the [else] branch, lines 219-228, from the
    neighbours, the clue and the engine's [safes] and [mines]. *)
Definition new_sentence (neighboring_cells : gset Cell) (count : Z) (ai : t)
  : Sentence.t :=
  let cell_count := count in
  let unique_neighboring_cells := neighboring_cells ∖ safes ai in
  let intersection_neighboring_cells := unique_neighboring_cells ∩ mines ai in
  if decide (0 < len intersection_neighboring_cells ∧ 0 < cell_count)
  then Sentence.init
         (unique_neighboring_cells ∖ intersection_neighboring_cells)
         (cell_count - len intersection_neighboring_cells)
  else Sentence.init unique_neighboring_cells cell_count.

(** Lines 203-228: record the move, mark the cell safe, then either settle
    all neighbours at once or append a new sentence. *)
Definition record_clue (cell : Cell) (count : Z) (ai : t) : t :=
  let ai := mk (height ai) (width ai) (moves_made ai ∪ {[cell]})
               (mines ai) (safes ai) (knowledge ai) in
  let ai := mark_safe cell ai in
  let neighboring_cells := get_neighboring_cells cell ai in
  if decide (count = 0) then
    for_cells mark_safe neighboring_cells ai
  else if decide (count = len neighboring_cells) then
    for_cells mark_mine neighboring_cells ai
  else
    set_knowledge (knowledge ai ++ [new_sentence neighboring_cells count ai]) ai.

(** Lines 234-238: in every sentence with a positive count, remove the cells
    known to be safe. *)
Definition remove_known_safes (ai : t) : result t :=
  for_sentences
    (λ i s a,
       if decide (0 < Sentence.count s) then
         s' ← for_each
                (λ a_safe_cell s0,
                   if decide (a_safe_cell ∈ Sentence.cells s0) then
                     cs ← set_remove a_safe_cell (Sentence.cells s0);
                     Ok (Sentence.mk cs (Sentence.count s0))
                   else Ok s0)
                (elements (safes a)) s;
         Ok (set_sentence i s' a)
       else Ok a)
    ai.

(** Lines 243-248: the cells of every sentence whose positive count equals
    the number of its cells. *)
Definition exact_match_cells (ai : t) : list Cell :=
  flat_map
    (λ s, if decide (0 < Sentence.count s) then
            if decide (len (Sentence.cells s) = Sentence.count s)
            then elements (Sentence.cells s) else []
          else [])
    (knowledge ai).

(** Lines 243-252: mark each collected cell as a mine. *)
Definition mark_exact_matches (ai : t) : result t :=
  let a_mine_cell_list := exact_match_cells ai in
  for_each
    (λ a_mine_cell a,
       '(_, a') ← remove_mine_from_sentences_with_counts_greater_than_1
                    a_mine_cell (mark_mine a_mine_cell a);
       Ok a')
    a_mine_cell_list ai.

(** Lines 256-260: the singleton rule.  The argument [cells.pop()] is
    evaluated, and the cell leaves its sentence, before [mark_mine] runs. *)
Definition mark_singleton_mines (ai : t) : result t :=
  for_sentences
    (λ i s a,
       if decide (Sentence.count s = 1) then
         if decide (len (Sentence.cells s) = 1) then
           if decide (0 < len (Sentence.known_mines s)) then
             '(c, cs) ← set_pop (Sentence.cells s);
             Ok (mark_mine c (set_sentence i (Sentence.mk cs (Sentence.count s)) a))
           else Ok a
         else Ok a
       else Ok a)
    ai.

(** Lines 263-268: the zero-count sweep.  Each element of [known_safes()] is
    a tuple, and the argument [safe_cell.pop()] is evaluated first. *)
Definition mark_zero_count_safes (ai : t) : result t :=
  for_sentences
    (λ i s a,
       if decide (Sentence.count s = 0) then
         if decide (0 < len (Sentence.cells s)) then
           let known_safe_cells := Sentence.known_safes s in
           for_each
             (λ safe_cell a0, c ← tuple_pop safe_cell; Ok (mark_safe c a0))
             (elements known_safe_cells) a
         else Ok a
       else Ok a)
    ai.

(** Lines 273-277: when the known mines among the neighbours already account
    for the clue, the other neighbours are safe. *)
Definition mark_completed_neighbors (cell : Cell) (count : Z) (ai : t) : t :=
  if decide (0 < count) then
    let safe_cells_based_on_the_count :=
      check_which_neighbor_cells_are_safe cell count ai in
    if decide (0 < len safe_cells_based_on_the_count) then
      for_cells mark_safe safe_cells_based_on_the_count ai
    else ai
  else ai.

(** [add_knowledge], lines 187-278. *)
Definition add_knowledge (cell : Cell) (count : Z) (ai : t) : result t :=
  let ai := record_clue cell count ai in
  ai ← remove_known_safes ai;
  ai ← mark_exact_matches ai;
  ai ← mark_singleton_mines ai;
  ai ← mark_zero_count_safes ai;
  Ok (mark_completed_neighbors cell count ai).

(** [make_safe_move], lines 281-296: the value returned and the engine after
    the call. *)
Definition make_safe_move (ai : t) : result (option Cell * t) :=
  let possible_safe_moves := safes ai in
  let possible_safe_moves := possible_safe_moves ∖ moves_made ai in
  if decide (len possible_safe_moves < 1) then Ok (None, ai)
  else '(c, _) ← set_pop possible_safe_moves; Ok (Some c, ai).

(** Lines 318-321: the cell sets of the sentences whose count equals the
    number of their cells, each appended as one element. *)
Definition know_mine_cells (ai : t) : list (gset Cell) :=
  flat_map
    (λ s, if decide (Sentence.count s = len (Sentence.cells s)
                     ∧ 0 < len (Sentence.cells s))
          then [Sentence.cells s] else [])
    (knowledge ai).

(** [make_random_move], lines 300-332. *)
Definition make_random_move (ai : t) : result (option Cell * t) :=
  let virtual_board_cells : gset Cell :=
    list_to_set (board_cells (height ai) (width ai)) in
  let virtual_board_cells := virtual_board_cells ∖ moves_made ai in
  excluded ← set_of_sets (know_mine_cells ai);
  let virtual_board_cells := virtual_board_cells ∖ excluded in
  if decide (0 < len virtual_board_cells) then
    '(c, _) ← set_pop virtual_board_cells; Ok (Some c, ai)
  else Ok (None, ai).

(** A session: the clues recorded one after the other. *)
Definition add_all (clues : list (Cell * Z)) (ai : t) : result t :=
  for_each (λ clue a, add_knowledge clue.1 clue.2 a) clues ai.

End MinesweeperAI.

(** ** class Minesweeper *)

Module Minesweeper.

(** Outcome of a call on the game: it returns, it raises one of the two
    exceptions the class can meet, or, in [__init__], it is still drawing
    random numbers when the numbers supplied are used up. *)
Inductive run (A : Type) : Type :=
| Returns (a : A)
| IndexError
| ValueError
| Starved.
Arguments Returns {A} a.
Arguments IndexError {A}.
Arguments ValueError {A}.
Arguments Starved {A}.

#[global] Instance run_ret : MRet run := λ A a, Returns a.
#[global] Instance run_bind : MBind run := λ A B f m,
  match m with
  | Returns a => f a
  | IndexError => IndexError
  | ValueError => ValueError
  | Starved => Starved
  end.

(** A [for] loop over a list, with an accumulator; the body may raise. *)
Fixpoint for_run {A S : Type} (body : A → S → run S) (l : list A) (st : S)
  : run S :=
  match l with
  | [] => Returns st
  | x :: l' => st' ← body x st; for_run body l' st'
  end.

(** [range(a, b)]. *)
Definition range (a b : Z) : list Z := seqZ a (b - a).

(** [l[i]] on a list: a negative index counts from the end, and an index
    out of range raises [IndexError]. *)
Definition py_index {A : Type} (l : list A) (i : Z) : run A :=
  let n := Z.of_nat (length l) in
  let k := if decide (i < 0) then i + n else i in
  if decide (0 ≤ k < n) then
    match l !! Z.to_nat k with
    | Some x => Returns x
    | None => IndexError
    end
  else IndexError.

(** [l[i] = x] on a list, with the same index rules. *)
Definition py_store {A : Type} (l : list A) (i : Z) (x : A) : run (list A) :=
  let n := Z.of_nat (length l) in
  let k := if decide (i < 0) then i + n else i in
  if decide (0 ≤ k < n) then Returns (<[Z.to_nat k := x]> l) else IndexError.

Record t : Type := mk {
  height : Z;
  width : Z;
  mines : gset Cell;
  board : list (list bool);
  mines_found : gset Cell
}.

(** Lines 13-23 of [__init__]: the field without mines. *)
Definition empty_field (h w : Z) : t :=
  mk h w ∅ (map (λ _, map (λ _, false) (range 0 w)) (range 0 h)) ∅.

(** [random.randrange(n)] with the number [x] drawn: [ValueError] on an
    empty range. *)
Definition randrange (n x : Z) : run Z :=
  if decide (n ≤ 0) then ValueError else Returns x.

(** One round of the loop of lines 26-31, with the pair of numbers drawn. *)
Definition place_mine (draw : Cell) (g : t) : run t :=
  i ← randrange (height g) draw.1;
  j ← randrange (width g) draw.2;
  row ← py_index (A := list bool) (board g) i;
  taken ← py_index (A := bool) row j;
  if (taken : bool) then Returns g
  else
    row' ← py_store row j true;
    board' ← py_store (board g) i row';
    Returns (mk (height g) (width g) (mines g ∪ {[(i, j)]}) board'
                (mines_found g)).

(** The loop of lines 26-31: [draws] are the pairs that the successive calls
    of [random.randrange] yield.  On a board without cells a round raises
    [ValueError] whatever would be drawn, so the range checks of its two
    calls of [random.randrange] come before the need for a pair. *)
Fixpoint add_mines (n : Z) (draws : list Cell) (g : t) : run t :=
  if decide (len (mines g) ≠ n) then
    match draws with
    | [] => _ ← randrange (height g) 0; _ ← randrange (width g) 0; Starved
    | draw :: draws' => g' ← place_mine draw g; add_mines n draws' g'
    end
  else Returns g.

(** [Minesweeper.__init__(height, width, mines)], lines 10-34. *)
Definition init (h w n : Z) (draws : list Cell) : run t :=
  add_mines n draws (empty_field h w).

(** [is_mine], lines 51-53. *)
Definition is_mine (g : t) (cell : Cell) : run bool :=
  row ← py_index (A := list bool) (board g) cell.1;
  py_index (A := bool) row cell.2.

(** [nearby_mines], lines 55-78. *)
Definition nearby_mines (g : t) (cell : Cell) : run Z :=
  for_run
    (λ i count,
       for_run
         (λ j count,
            if decide ((i, j) = cell) then Returns count
            else if decide ((0 ≤ i < height g) ∧ (0 ≤ j < width g)) then
              row ← py_index (A := list bool) (board g) i;
              mined ← py_index (A := bool) row j;
              if (mined : bool) then Returns (count + 1) else Returns count
            else Returns count)
         (range (cell.2 - 1) (cell.2 + 2)) count)
    (range (cell.1 - 1) (cell.1 + 2)) 0.

(** [won], lines 80-84. *)
Definition won (g : t) : bool := bool_decide (mines_found g = mines g).

End Minesweeper.

(** ** Vocabulary of the statements *)

Import MinesweeperAI.

(** Step 5 of [add_knowledge] on one sentence, as a function. *)
Definition drop_safes (sf : gset Cell) (s : Sentence.t) : Sentence.t :=
  if decide (0 < Sentence.count s)
  then Sentence.mk (Sentence.cells s ∖ sf) (Sentence.count s)
  else s.

(** [remove_mine_from_sentences_with_counts_greater_than_1] on one
    sentence, as a function. *)
Definition drop_counted_mine (cell : Cell) (s : Sentence.t) : Sentence.t :=
  if decide (1 < Sentence.count s) then
    if decide (cell ∈ Sentence.cells s)
    then Sentence.mk (Sentence.cells s ∖ {[cell]}) (Sentence.count s - 1)
    else s
  else s.

(** One round of the loop of lines 249-251. *)
Definition mark_exact_match (cell : Cell) (ai : t) : t :=
  let ai := mark_mine cell ai in
  set_knowledge (map (drop_counted_mine cell) (knowledge ai)) ai.

(** A sentence whose count equals the number of its cells, which has at
    least one cell. *)
Definition all_mines (s : Sentence.t) : Prop :=
  Sentence.count s = len (Sentence.cells s) ∧ 0 < len (Sentence.cells s).

(** A sentence is true of the mine placement [M]. *)
Definition true_sentence (M : gset Cell) (s : Sentence.t) : Prop :=
  Sentence.count s = len (Sentence.cells s ∩ M).

(** What the engine holds is true of the mine placement [M]. *)
Record sound (M : gset Cell) (ai : t) : Prop := {
  sound_safes : safes ai ## M;
  sound_mines : mines ai ⊆ M;
  sound_knowledge : Forall (true_sentence M) (knowledge ai)
}.

(** The clue [(cell, count)] counts the mines of [M] among the in-bounds
    neighbours of [cell] on an [h] by [w] board. *)
Definition true_count (h w : Z) (M : gset Cell) (clue : Cell * Z) : Prop :=
  clue.2 = len (get_neighboring_cells clue.1 (init h w) ∩ M).

(** A clue the board can give: the revealed cell is not a mine, and its count
    is the true one. *)
Definition consistent (h w : Z) (M : gset Cell) (clue : Cell * Z) : Prop :=
  (fst clue ∉ M) ∧ true_count h w M clue.

(** Two engines on boards of the same size. *)
Definition same_board (a b : t) : Prop :=
  height a = height b ∧ width a = width b.

(** What no block of [add_knowledge] after the first undoes: the three sets
    only grow and the knowledge list keeps its length. *)
Definition extends (a b : t) : Prop :=
  moves_made a ⊆ moves_made b ∧ safes a ⊆ safes b ∧ mines a ⊆ mines b
  ∧ length (knowledge a) = length (knowledge b).

(** ** Sessions used as examples *)

(** A 1 by 6 board with mines at columns 1 and 5, and three truthful clues. *)
Definition line_mines : gset Cell := {[ (0, 1); (0, 5) ]}.
Definition line_clues : list (Cell * Z) := [((0, 0), 1); ((0, 4), 1); ((0, 2), 1)].
Definition line_engine : t :=
  mk 1 6 {[ (0, 0); (0, 1); (0, 2); (0, 4) ]} {[ (0, 1) ]}
     {[ (0, 0); (0, 2); (0, 3); (0, 4) ]}
     [Sentence.mk {[ (0, 5) ]} 1; Sentence.mk ∅ 0].

(** A 1 by 4 board with one mine at column 2: the engine after the clue of
    column 1, and after the clue of column 3. *)
Definition row_after_first : t :=
  mk 1 4 {[ (0, 1) ]} ∅ {[ (0, 1) ]} [Sentence.mk {[ (0, 0); (0, 2) ]} 1].
Definition row_after_second : t :=
  mk 1 4 {[ (0, 1); (0, 2); (0, 3) ]} {[ (0, 2) ]} {[ (0, 1); (0, 3) ]}
     [Sentence.mk {[ (0, 0) ]} 0].

(** A 1 by 4 board with one mine at column 1, after the clues of columns 0
    and 3. *)
Definition settled_row : t :=
  mk 1 4 {[ (0, 0); (0, 1); (0, 3) ]} {[ (0, 1) ]} {[ (0, 0); (0, 2); (0, 3) ]} [].

(** A 1 by 1 board whose only cell has been played. *)
Definition played_cell : t := mk 1 1 {[ (0, 0) ]} ∅ {[ (0, 0) ]} [].

(** The engine of scenario D, before and after [(1, 1)] is played. *)
Definition scenario_d : t := mk 8 8 {[ (0, 0) ]} ∅ {[ (0, 0); (1, 1) ]} [].
Definition scenario_d_played : t :=
  mk 8 8 {[ (0, 0); (1, 1) ]} ∅ {[ (0, 0); (1, 1) ]} [].

(** ** Vocabulary for the game and for reachable engines *)

(** The entry of the board at row [i] and column [j], if there is one. *)
Definition field_at (g : Minesweeper.t) (i j : nat) : option bool :=
  Minesweeper.board g !! i ≫= λ row, row !! j.

(** The shape [Minesweeper.__init__] gives a game: [height] rows of [width]
    entries each, an entry being [True] exactly at the cells of [mines], all
    of which are on the board. *)
Record field_ok (g : Minesweeper.t) : Prop := {
  field_rows : length (Minesweeper.board g) = Z.to_nat (Minesweeper.height g);
  field_cols : Forall (λ row : list bool,
                         length row = Z.to_nat (Minesweeper.width g))
                      (Minesweeper.board g);
  field_mines : ∀ i j : nat,
      field_at g i j = Some true
      ↔ (Z.of_nat i, Z.of_nat j) ∈ Minesweeper.mines g;
  field_on_board : ∀ c, c ∈ Minesweeper.mines g →
      c ∈ board_cells (Minesweeper.height g) (Minesweeper.width g)
}.

(** No sentence of the engine mentions a cell known to be safe. *)
Definition no_safe_cell_in_sentences (ai : t) : Prop :=
  Forall (λ s, Sentence.cells s ## safes ai) (knowledge ai).

(** The clues the game gives for the cells of [cs], in that order; [None]
    when one of the calls of [nearby_mines] raises. *)
Fixpoint clues_of (g : Minesweeper.t) (cs : list Cell) : option (list (Cell * Z)) :=
  match cs with
  | [] => Some []
  | c :: cs' =>
      match Minesweeper.nearby_mines g c, clues_of g cs' with
      | Minesweeper.Returns n, Some l => Some ((c, n) :: l)
      | _, _ => None
      end
  end.

(** The pairs [(i, j)] with [i] in [rows] and [j] in [cols], row by row, as
    two nested loops visit them. *)
Definition grid (rows cols : list Z) : list Cell :=
  concat (map (λ i, map (λ j, (i, j)) cols) rows).

(** A cell counted by [nearby_mines(cell)]: another cell, on the board, with
    a mine. *)
Definition counted (g : Minesweeper.t) (cell c : Cell) : Prop :=
  c ≠ cell
  ∧ ((0 ≤ c.1 < Minesweeper.height g) ∧ (0 ≤ c.2 < Minesweeper.width g))
  ∧ c ∈ Minesweeper.mines g.

#[global] Instance counted_dec g cell c : Decision (counted g cell c).
Proof. unfold counted. apply _. Defined.

(** A 1 by 2 game with its mine at column 1, as [__init__] builds it from
    the draw [(0, 1)]. *)
Definition small_game : Minesweeper.t :=
  Minesweeper.mk 1 2 {[ (0, 1) ]} [[false; true]] ∅.

(** * Properties *)

(** ** Sets and loops *)

Lemma len_nonneg (s : gset Cell) : 0 ≤ len s.
Proof. unfold len. lia. Qed.

Lemma len_empty : len ∅ = 0.
Proof. reflexivity. Qed.

Lemma len_pos_iff (s : gset Cell) : 0 < len s ↔ s ≠ ∅.
Proof.
  unfold len. split.
  - intros Hpos ->. rewrite size_empty in Hpos. lia.
  - intros Hne. assert (size s ≠ 0%nat); [|lia].
    apply size_non_empty_iff. by intros ->%leibniz_equiv.
Qed.

Lemma len_difference_singleton (x : Cell) (s : gset Cell) :
  x ∈ s → len (s ∖ {[x]}) = len s - 1.
Proof.
  intros Hx. unfold len.
  assert (size (s ∖ {[x]}) = size s - size ({[x]} : gset Cell))%nat as Hsz.
  { apply size_difference. set_solver. }
  assert (0 < size s)%nat.
  { destruct (decide (size s = 0%nat)) as [Hz|]; [|lia].
    apply size_empty_inv in Hz. set_solver. }
  rewrite size_singleton in Hsz. lia.
Qed.

Lemma set_remove_member (x : Cell) (s : gset Cell) :
  x ∈ s → set_remove x s = Ok (s ∖ {[x]}).
Proof. intros Hx. unfold set_remove. by rewrite decide_True. Qed.

Lemma set_pop_nonempty (s : gset Cell) :
  s ≠ ∅ → ∃ c, set_pop s = Ok (c, s ∖ {[c]}) ∧ c ∈ s.
Proof.
  intros Hne. unfold set_pop.
  destruct (elements s) as [|c l] eqn:Hel.
  - apply elements_empty_inv in Hel. by apply leibniz_equiv in Hel.
  - exists c. split; [done|]. apply elem_of_elements. rewrite Hel. left.
Qed.

Lemma for_each_skip {A S : Type} (body : A → S → result S) (l : list A) (st : S) :
  (∀ x st', body x st' = Ok st') → for_each body l st = Ok st.
Proof.
  intros Hbody. induction l as [|x l IH]; simpl; [done|].
  by rewrite Hbody.
Qed.

(** ** Loops over the knowledge list *)

Lemma set_knowledge_twice k k' ai :
  set_knowledge k (set_knowledge k' ai) = set_knowledge k ai.
Proof. reflexivity. Qed.

Lemma set_knowledge_same ai : set_knowledge (knowledge ai) ai = ai.
Proof. by destruct ai. Qed.

Lemma for_sentences_skip body ai :
  (∀ i s a, knowledge a !! i = Some s → body i s a = Ok a) →
  for_sentences body ai = Ok ai.
Proof.
  intros Hbody. unfold for_sentences.
  generalize (seq 0 (length (knowledge ai))). intros l.
  induction l as [|i l IH]; simpl; [done|].
  destruct (knowledge ai !! i) as [s|] eqn:Hi; [rewrite (Hbody _ _ _ Hi)|]; apply IH.
Qed.

(** A loop whose body rewrites only the sentence it visits, by a function [f]
    that may read what the loop leaves fixed (described by [P]), rewrites the
    whole list with [f]. *)
Lemma for_sentences_map (P : t → Prop) (f : Sentence.t → Sentence.t) body ai :
  (∀ i s a, P a → knowledge a !! i = Some s →
            body i s a = Ok (set_sentence i (f s) a)) →
  (∀ k a, P a → P (set_knowledge k a)) →
  P ai →
  for_sentences body ai = Ok (set_knowledge (map f (knowledge ai)) ai).
Proof.
  intros Hbody Hframe HP. unfold for_sentences.
  assert (∀ todo done a,
    P a → knowledge a = map f done ++ todo →
    for_each
      (λ i a0, match knowledge a0 !! i with
               | Some s => body i s a0
               | None => Ok a0
               end)
      (seq (length done) (length todo)) a
    = Ok (set_knowledge (map f (done ++ todo)) a)) as Hgen.
  { induction todo as [|s todo IH]; intros done a Ha Hk; simpl.
    - rewrite app_nil_r. rewrite app_nil_r in Hk. rewrite <- Hk.
      by rewrite set_knowledge_same.
    - assert (knowledge a !! length done = Some s) as Hlook.
      { rewrite Hk. rewrite lookup_app_r; rewrite length_map; [|lia].
        by rewrite Nat.sub_diag. }
      rewrite Hlook, (Hbody _ _ _ Ha Hlook). simpl.
      specialize (IH (done ++ [s]) (set_sentence (length done) (f s) a)).
      rewrite length_app in IH. simpl in IH.
      rewrite Nat.add_1_r in IH. rewrite IH.
      + unfold set_sentence. rewrite set_knowledge_twice.
        by rewrite <- app_assoc.
      + unfold set_sentence. by apply Hframe.
      + unfold set_sentence. simpl. rewrite Hk.
        replace (length done) with (length (map f done) + 0)%nat
          by (rewrite length_map; lia).
        rewrite insert_app_r. simpl.
        by rewrite map_app, <- app_assoc. }
  specialize (Hgen (knowledge ai) [] ai HP eq_refl). simpl in Hgen.
  exact Hgen.
Qed.

(** ** The blocks of [add_knowledge] in closed form *)

Lemma remove_listed_cells (l : list Cell) (s : Sentence.t) :
  for_each
    (λ a_safe_cell s0,
       if decide (a_safe_cell ∈ Sentence.cells s0) then
         cs ← set_remove a_safe_cell (Sentence.cells s0);
         Ok (Sentence.mk cs (Sentence.count s0))
       else Ok s0)
    l s
  = Ok (Sentence.mk (Sentence.cells s ∖ list_to_set l) (Sentence.count s)).
Proof.
  revert s. induction l as [|c l IH]; intros [cs n]; simpl.
  - by rewrite difference_empty_L.
  - destruct (decide (c ∈ cs)) as [Hc|Hc]; simpl.
    + rewrite (set_remove_member _ _ Hc). simpl. rewrite IH. simpl.
      by rewrite difference_difference_l_L.
    + rewrite IH. simpl. do 2 f_equal.
      rewrite <- difference_difference_l_L. f_equal.
      apply set_eq. intros x. rewrite elem_of_difference, elem_of_singleton.
      intuition congruence.
Qed.

Lemma remove_known_safes_eq ai :
  remove_known_safes ai
  = Ok (set_knowledge (map (drop_safes (safes ai)) (knowledge ai)) ai).
Proof.
  unfold remove_known_safes.
  apply (for_sentences_map (λ a, safes a = safes ai)); [|done|done].
  intros i s a Ha Hi. unfold drop_safes.
  destruct (decide (0 < Sentence.count s)) as [Hpos|Hpos].
  - rewrite remove_listed_cells. simpl.
    by rewrite list_to_set_elements_L, Ha.
  - unfold set_sentence. by rewrite list_insert_id, set_knowledge_same.
Qed.

Lemma remove_mine_from_sentences_eq cell ai :
  remove_mine_from_sentences_with_counts_greater_than_1 cell ai
  = Ok (true, set_knowledge (map (drop_counted_mine cell) (knowledge ai)) ai).
Proof.
  unfold remove_mine_from_sentences_with_counts_greater_than_1.
  rewrite (for_sentences_map (λ _, True) (drop_counted_mine cell)); [done| |done|done].
  intros i s a _ Hi. unfold drop_counted_mine.
  destruct (decide (1 < Sentence.count s)) as [Hgt|Hgt].
  - destruct (decide (cell ∈ Sentence.cells s)) as [Hc|Hc].
    + by rewrite (set_remove_member _ _ Hc).
    + unfold set_sentence. by rewrite list_insert_id, set_knowledge_same.
  - unfold set_sentence. by rewrite list_insert_id, set_knowledge_same.
Qed.

(** With a count of 1, [known_mines] is empty: the singleton rule never
    fires. *)
Lemma mark_singleton_mines_eq ai : mark_singleton_mines ai = Ok ai.
Proof.
  apply for_sentences_skip. intros i s a _.
  destruct (decide (Sentence.count s = 1)) as [H1|]; [|done].
  destruct (decide (len (Sentence.cells s) = 1)); [|done].
  unfold Sentence.known_mines.
  rewrite (decide_False (P := Sentence.count s = 0)) by lia.
  by rewrite decide_False by (rewrite len_empty; lia).
Qed.

(** With a count of 0, [known_safes] is empty: the zero-count sweep never
    marks a cell. *)
Lemma mark_zero_count_safes_eq ai : mark_zero_count_safes ai = Ok ai.
Proof.
  apply for_sentences_skip. intros i s a _.
  destruct (decide (Sentence.count s = 0)) as [H0|]; [|done].
  destruct (decide (0 < len (Sentence.cells s))); [|done].
  unfold Sentence.known_safes.
  rewrite (decide_False (P := 0 < Sentence.count s ∧ _)) by lia.
  by rewrite elements_empty.
Qed.

Lemma mark_exact_matches_eq ai :
  mark_exact_matches ai
  = Ok (foldl (λ a c, mark_exact_match c a) ai (exact_match_cells ai)).
Proof.
  unfold mark_exact_matches. generalize (exact_match_cells ai). intros l.
  revert ai. induction l as [|c l IH]; intros ai; simpl; [done|].
  rewrite remove_mine_from_sentences_eq. simpl. apply IH.
Qed.

(** [add_knowledge] never raises, and its result has this closed form. *)
Lemma add_knowledge_eq cell count ai :
  add_knowledge cell count ai
  = let a1 := record_clue cell count ai in
    let a2 := set_knowledge (map (drop_safes (safes a1)) (knowledge a1)) a1 in
    let a3 := foldl (λ a c, mark_exact_match c a) a2 (exact_match_cells a2) in
    Ok (mark_completed_neighbors cell count a3).
Proof.
  unfold add_knowledge. rewrite remove_known_safes_eq. simpl.
  rewrite mark_exact_matches_eq. simpl.
  rewrite mark_singleton_mines_eq. simpl.
  by rewrite mark_zero_count_safes_eq.
Qed.

(** ** Soundness of the deductions *)

Lemma len_inter_subseteq (X M : gset Cell) : len (X ∩ M) = len X → X ⊆ M.
Proof.
  unfold len. intros Hlen.
  assert (size (X ∖ M) = 0%nat) as Hz.
  { rewrite size_difference_alt. lia. }
  apply size_empty_inv in Hz. intros x Hx.
  destruct (decide (x ∈ M)) as [|Hn]; [done|].
  assert (x ∈ X ∖ M) as Hd by (apply elem_of_difference; done).
  rewrite Hz in Hd. by apply not_elem_of_empty in Hd.
Qed.

Lemma true_sentence_mark_safe M c s :
  c ∉ M → true_sentence M s → true_sentence M (Sentence.mark_safe c s).
Proof.
  unfold true_sentence, Sentence.mark_safe. intros Hc Hs.
  destruct (decide (c ∈ Sentence.cells s)); [simpl|done].
  rewrite Hs. f_equal. apply set_eq. intros x.
  rewrite !elem_of_intersection, elem_of_difference, elem_of_singleton.
  intuition congruence.
Qed.

Lemma true_sentence_mark_mine M c s :
  c ∈ M → true_sentence M s → true_sentence M (Sentence.mark_mine c s).
Proof.
  unfold true_sentence, Sentence.mark_mine. intros Hc Hs.
  destruct (decide (c ∈ Sentence.cells s)) as [Hin|]; [simpl|done].
  rewrite Hs, <- (len_difference_singleton c) by (apply elem_of_intersection; done).
  f_equal. apply set_eq. intros x.
  rewrite !elem_of_intersection, !elem_of_difference, elem_of_intersection.
  intuition congruence.
Qed.

Lemma true_sentence_drop_safes M sf s :
  sf ## M → true_sentence M s → true_sentence M (drop_safes sf s).
Proof.
  unfold true_sentence, drop_safes. intros Hsf Hs.
  destruct (decide (0 < Sentence.count s)); [simpl|done].
  rewrite Hs. f_equal. apply set_eq. intros x.
  rewrite !elem_of_intersection, elem_of_difference.
  specialize (Hsf x). intuition congruence.
Qed.

Lemma true_sentence_drop_counted_mine M c s :
  c ∈ M → true_sentence M s → true_sentence M (drop_counted_mine c s).
Proof.
  intros Hc Hs. unfold drop_counted_mine.
  destruct (decide (1 < Sentence.count s)); [|done].
  pose proof (true_sentence_mark_mine M c s Hc Hs) as Hm.
  unfold Sentence.mark_mine in Hm.
  by destruct (decide (c ∈ Sentence.cells s)).
Qed.

Lemma sound_mark_safe M c ai : c ∉ M → sound M ai → sound M (mark_safe c ai).
Proof.
  intros Hc [Hs Hm Hk]. split; simpl.
  - intros x. rewrite elem_of_union, elem_of_singleton.
    specialize (Hs x). intuition congruence.
  - done.
  - apply Forall_fmap. eapply Forall_impl; [exact Hk|].
    intros s. by apply true_sentence_mark_safe.
Qed.

Lemma sound_mark_mine M c ai : c ∈ M → sound M ai → sound M (mark_mine c ai).
Proof.
  intros Hc [Hs Hm Hk]. split; simpl.
  - done.
  - intros x. rewrite elem_of_union, elem_of_singleton.
    specialize (Hm x). intuition congruence.
  - apply Forall_fmap. eapply Forall_impl; [exact Hk|].
    intros s. by apply true_sentence_mark_mine.
Qed.

Lemma sound_mark_exact_match M c ai :
  c ∈ M → sound M ai → sound M (mark_exact_match c ai).
Proof.
  intros Hc Hai. destruct (sound_mark_mine M c ai Hc Hai) as [Hs Hm Hk].
  unfold mark_exact_match. split; simpl; [done|done|].
  simpl in Hk. apply Forall_fmap. eapply Forall_impl; [exact Hk|].
  intros s. by apply true_sentence_drop_counted_mine.
Qed.

Lemma sound_foldl M (body : Cell → t → t) (good : Cell → Prop) l ai :
  (∀ c a, good c → sound M a → sound M (body c a)) →
  Forall good l → sound M ai → sound M (foldl (λ a c, body c a) ai l).
Proof.
  intros Hbody Hl. revert ai.
  induction Hl as [|c l Hc Hl IH]; intros ai Hai; simpl; [done|].
  apply IH. by apply Hbody.
Qed.

Lemma sound_for_cells M (body : Cell → t → t) (good : Cell → Prop) cs ai :
  (∀ c a, good c → sound M a → sound M (body c a)) →
  (∀ c, c ∈ cs → good c) → sound M ai → sound M (for_cells body cs ai).
Proof.
  intros Hbody Hcs. unfold for_cells. apply (sound_foldl M body good); [done|].
  apply Forall_forall. intros c Hc. apply Hcs. by apply elem_of_elements.
Qed.

Lemma exact_match_cells_mines M ai c :
  sound M ai → c ∈ exact_match_cells ai → c ∈ M.
Proof.
  intros [_ _ Hk]. unfold exact_match_cells.
  rewrite list_elem_of_In, in_flat_map. intros (s & Hs & Hc).
  apply list_elem_of_In in Hs.
  rewrite Forall_forall in Hk. specialize (Hk s Hs). unfold true_sentence in Hk.
  destruct (decide (0 < Sentence.count s)); [|destruct Hc].
  destruct (decide (len (Sentence.cells s) = Sentence.count s)) as [Heq|];
    [|destruct Hc].
  apply list_elem_of_In, elem_of_elements in Hc.
  apply (len_inter_subseteq (Sentence.cells s) M); [lia|done].
Qed.

Lemma get_neighboring_cells_same_board cell a b :
  same_board a b → get_neighboring_cells cell a = get_neighboring_cells cell b.
Proof. unfold get_neighboring_cells. by intros [-> ->]. Qed.

Lemma same_board_trans a b c : same_board a b → same_board b c → same_board a c.
Proof. intros [? ?] [? ?]. split; congruence. Qed.

Lemma same_board_foldl (body : Cell → t → t) l ai :
  (∀ c a, same_board (body c a) a) →
  same_board (foldl (λ a c, body c a) ai l) ai.
Proof.
  intros Hbody. revert ai. induction l as [|c l IH]; intros ai; simpl; [done|].
  eapply same_board_trans; [apply IH|apply Hbody].
Qed.

Lemma same_board_record_clue cell count ai :
  same_board (record_clue cell count ai) ai.
Proof.
  unfold record_clue.
  destruct (decide (count = 0)); [|destruct (decide (count = len _))].
  - eapply same_board_trans; [by apply (same_board_foldl mark_safe)|done].
  - eapply same_board_trans; [by apply (same_board_foldl mark_mine)|done].
  - done.
Qed.

Lemma same_board_mark_completed_neighbors cell count ai :
  same_board (mark_completed_neighbors cell count ai) ai.
Proof.
  unfold mark_completed_neighbors.
  destruct (decide (0 < count)); [|done].
  destruct (decide (0 < len _)); [|done].
  by apply (same_board_foldl mark_safe).
Qed.

Lemma same_board_add_knowledge cell count ai ai' :
  add_knowledge cell count ai = Ok ai' → same_board ai' ai.
Proof.
  rewrite add_knowledge_eq. simpl. intros [= <-].
  eapply same_board_trans; [apply same_board_mark_completed_neighbors|].
  eapply same_board_trans; [by apply (same_board_foldl mark_exact_match)|].
  eapply same_board_trans; [|apply same_board_record_clue]. done.
Qed.

Lemma true_sentence_new_sentence M N count ai :
  sound M ai → count = len (N ∩ M) → true_sentence M (new_sentence N count ai).
Proof.
  intros [Hs Hm _] ->. unfold new_sentence, true_sentence, Sentence.init.
  assert (N ∩ M = (N ∖ safes ai) ∩ M) as Hsafe.
  { apply set_eq. intros x. rewrite !elem_of_intersection, elem_of_difference.
    specialize (Hs x). intuition congruence. }
  destruct (decide (0 < len ((N ∖ safes ai) ∩ mines ai) ∧ 0 < len (N ∩ M)));
    simpl; [|by rewrite Hsafe].
  assert (N ∩ M
          = ((N ∖ safes ai) ∩ mines ai)
            ∪ ((N ∖ safes ai) ∖ ((N ∖ safes ai) ∩ mines ai)) ∩ M) as Hsplit.
  { rewrite Hsafe. apply set_eq. intros x.
    rewrite elem_of_union, !elem_of_intersection, !elem_of_difference,
      elem_of_intersection, elem_of_difference.
    specialize (Hm x). destruct (decide (x ∈ mines ai)); intuition congruence. }
  rewrite Hsplit at 1. unfold len. rewrite size_union; [lia|].
  intros x. rewrite !elem_of_intersection, !elem_of_difference,
    elem_of_intersection.
  intros [HN Hmine] [[_ Hnot] _]. apply Hnot. split; [|done].
  by apply elem_of_difference.
Qed.

Lemma sound_record_clue M cell count ai :
  sound M ai → cell ∉ M → count = len (get_neighboring_cells cell ai ∩ M) →
  sound M (record_clue cell count ai).
Proof.
  intros Hai Hcell Hcount. unfold record_clue.
  set (a1 := mark_safe cell _).
  assert (sound M a1) as H1.
  { apply sound_mark_safe; [done|]. by destruct Hai. }
  assert (get_neighboring_cells cell a1 = get_neighboring_cells cell ai) as HN
    by by apply get_neighboring_cells_same_board.
  rewrite HN. clearbody a1.
  set (N := get_neighboring_cells cell ai) in *.
  destruct (decide (count = 0)) as [H0|H0].
  - apply (sound_for_cells M mark_safe (λ c, c ∉ M)); [apply sound_mark_safe| |done].
    intros c Hc HcM.
    assert (N ∩ M ≠ ∅) as Hne.
    { intros He. assert (c ∈ N ∩ M) as Hin by (by apply elem_of_intersection).
      rewrite He in Hin. by apply not_elem_of_empty in Hin. }
    apply len_pos_iff in Hne. lia.
  - destruct (decide (count = len N)) as [HN'|HN'].
    + apply (sound_for_cells M mark_mine (λ c, c ∈ M)); [apply sound_mark_mine| |done].
      intros c Hc. apply (len_inter_subseteq N M); [lia|done].
    + destruct H1 as [Hs Hm Hk]. split; simpl; [done|done|].
      apply Forall_app. split; [done|]. apply Forall_singleton.
      by apply true_sentence_new_sentence.
Qed.

Lemma sound_mark_completed_neighbors M cell count ai :
  sound M ai → count = len (get_neighboring_cells cell ai ∩ M) →
  sound M (mark_completed_neighbors cell count ai).
Proof.
  intros Hai Hcount. unfold mark_completed_neighbors.
  destruct (decide (0 < count)); [|done].
  destruct (decide (0 < len _)); [|done].
  apply (sound_for_cells M mark_safe (λ c, c ∉ M)); [apply sound_mark_safe| |done].
  intros c. unfold check_which_neighbor_cells_are_safe.
  set (N := get_neighboring_cells cell ai) in *.
  destruct (decide (count = len (N ∩ mines ai))) as [Heq|];
    [|by intros ?%not_elem_of_empty].
  assert (N ∩ mines ai = N ∩ M) as Hsame.
  { apply set_subseteq_size_eq.
    - destruct Hai as [_ Hm _]. intros x. rewrite !elem_of_intersection.
      specialize (Hm x). intuition congruence.
    - unfold len in *. lia. }
  rewrite Hsame, elem_of_difference, elem_of_intersection. intuition congruence.
Qed.

(** One clue, given truthfully for a cell that is no mine, keeps the engine
    sound, and the call returns. *)
Lemma sound_add_knowledge M cell count ai :
  sound M ai → cell ∉ M → count = len (get_neighboring_cells cell ai ∩ M) →
  ∃ ai', add_knowledge cell count ai = Ok ai' ∧ sound M ai'.
Proof.
  intros Hai Hcell Hcount. rewrite add_knowledge_eq. simpl.
  eexists. split; [done|].
  pose proof (sound_record_clue M cell count ai Hai Hcell Hcount) as H1.
  set (a1 := record_clue cell count ai) in *.
  assert (same_board a1 ai) as Hb1 by apply same_board_record_clue.
  clearbody a1.
  set (a2 := set_knowledge (map (drop_safes (safes a1)) (knowledge a1)) a1).
  assert (sound M a2) as H2.
  { destruct H1 as [Hs Hm Hk]. split; simpl; [done|done|].
    apply Forall_fmap. eapply Forall_impl; [exact Hk|].
    intros s. by apply true_sentence_drop_safes. }
  assert (same_board a2 ai) as Hb2 by done.
  clearbody a2.
  set (a3 := foldl _ a2 _).
  assert (sound M a3) as H3.
  { apply (sound_foldl M mark_exact_match (λ c, c ∈ M));
      [apply sound_mark_exact_match| |done].
    apply Forall_forall. intros c. by apply exact_match_cells_mines. }
  assert (same_board a3 ai) as Hb3.
  { eapply same_board_trans; [|exact Hb2].
    by apply (same_board_foldl mark_exact_match). }
  clearbody a3.
  apply sound_mark_completed_neighbors; [done|].
  by rewrite (get_neighboring_cells_same_board cell a3 ai).
Qed.

(** ** What [add_knowledge] keeps *)

Lemma extends_refl a : extends a a.
Proof. by repeat split. Qed.

Lemma extends_trans a b c : extends a b → extends b c → extends a c.
Proof.
  intros (Hm & Hs & Hn & Hk) (Hm' & Hs' & Hn' & Hk').
  repeat split; [by etrans|by etrans|by etrans|congruence].
Qed.

Lemma extends_mark_safe c a : extends a (mark_safe c a).
Proof.
  repeat split; simpl; [done|apply union_subseteq_l|done|by rewrite length_map].
Qed.

Lemma extends_mark_mine c a : extends a (mark_mine c a).
Proof.
  repeat split; simpl;
    [apply union_subseteq_l|done|apply union_subseteq_l|by rewrite length_map].
Qed.

Lemma extends_mark_exact_match c a : extends a (mark_exact_match c a).
Proof.
  eapply extends_trans; [apply (extends_mark_mine c)|].
  unfold mark_exact_match. repeat split; simpl; [done..|by rewrite !length_map].
Qed.

Lemma extends_foldl (body : Cell → t → t) l ai :
  (∀ c a, extends a (body c a)) → extends ai (foldl (λ a c, body c a) ai l).
Proof.
  intros Hbody. revert ai.
  induction l as [|c l IH]; intros ai; simpl; [apply extends_refl|].
  eapply extends_trans; [apply Hbody|apply IH].
Qed.

Lemma extends_mark_completed_neighbors cell count ai :
  extends ai (mark_completed_neighbors cell count ai).
Proof.
  unfold mark_completed_neighbors.
  destruct (decide (0 < count)); [|apply extends_refl].
  destruct (decide (0 < len _)); [|apply extends_refl].
  apply (extends_foldl mark_safe), extends_mark_safe.
Qed.

Lemma extends_add_knowledge cell count ai ai' :
  add_knowledge cell count ai = Ok ai' → extends (record_clue cell count ai) ai'.
Proof.
  rewrite add_knowledge_eq. simpl. intros [= <-].
  eapply extends_trans; [|apply extends_mark_completed_neighbors].
  eapply extends_trans;
    [|apply (extends_foldl mark_exact_match), extends_mark_exact_match].
  repeat split; simpl; [done..|by rewrite length_map].
Qed.

Lemma record_clue_records cell count ai :
  cell ∈ moves_made (record_clue cell count ai)
  ∧ cell ∈ safes (record_clue cell count ai).
Proof.
  unfold record_clue. set (a1 := mark_safe cell _).
  assert (cell ∈ moves_made a1 ∧ cell ∈ safes a1) as [Hm Hs].
  { split; simpl; apply elem_of_union_r; by apply elem_of_singleton. }
  clearbody a1.
  destruct (decide (count = 0)); [|destruct (decide (count = len _))].
  - destruct (extends_foldl mark_safe
                (elements (get_neighboring_cells cell a1)) a1 extends_mark_safe)
      as (Hm' & Hs' & _). split; [by apply Hm'|by apply Hs'].
  - destruct (extends_foldl mark_mine
                (elements (get_neighboring_cells cell a1)) a1 extends_mark_mine)
      as (Hm' & Hs' & _). split; [by apply Hm'|by apply Hs'].
  - done.
Qed.

(** ** Neighbours *)

Lemma elem_of_board_cells h w (c : Cell) :
  c ∈ board_cells h w ↔ (0 ≤ c.1 < h) ∧ (0 ≤ c.2 < w).
Proof.
  unfold board_cells. rewrite list_elem_of_In, in_concat. split.
  - intros (row & Hrow & Hc). apply in_map_iff in Hrow as (i & <- & Hi).
    apply in_map_iff in Hc as (j & <- & Hj).
    apply list_elem_of_In, elem_of_seqZ in Hi.
    apply list_elem_of_In, elem_of_seqZ in Hj. simpl. lia.
  - intros [Hi Hj]. destruct c as [i j]. simpl in *.
    exists (map (λ j0, (i, j0)) (seqZ 0 w)). split.
    + apply in_map_iff. exists i. split; [done|].
      apply list_elem_of_In, elem_of_seqZ. lia.
    + apply in_map_iff. exists j. split; [done|].
      apply list_elem_of_In, elem_of_seqZ. lia.
Qed.

Lemma elem_of_add_if_on_board (c x : Cell) (vb : list Cell) (ns : gset Cell) :
  c ∈ (if decide (x ∈ vb) then ns ∪ {[x]} else ns) ↔ c ∈ ns ∨ (c = x ∧ x ∈ vb).
Proof.
  destruct (decide (x ∈ vb)) as [Hx|Hx].
  - rewrite elem_of_union, elem_of_singleton. tauto.
  - tauto.
Qed.

(** The neighbours of a cell are the in-bounds cells at distance one. *)
Lemma elem_of_get_neighboring_cells (c cell : Cell) ai :
  c ∈ get_neighboring_cells cell ai ↔
  (0 ≤ c.1 < height ai) ∧ (0 ≤ c.2 < width ai)
  ∧ (cell.1 - 1 ≤ c.1 ≤ cell.1 + 1) ∧ (cell.2 - 1 ≤ c.2 ≤ cell.2 + 1)
  ∧ c ≠ cell.
Proof.
  unfold get_neighboring_cells. cbv zeta.
  rewrite !elem_of_add_if_on_board, !elem_of_board_cells, elem_of_empty.
  destruct c as [i j], cell as [r k]. simpl. split.
  - intros Hc.
    repeat destruct Hc as [Hc|Hc]; try done;
      destruct Hc as [Heq [? ?]]; injection Heq as Hi Hj;
      (repeat split; try lia); intros [= ? ?]; lia.
  - intros (Hi & Hj & Hr & Hk & Hne).
    assert (i ≠ r ∨ j ≠ k) as Hdiff.
    { destruct (decide (i = r)) as [->|]; [right; congruence|by left]. }
    assert (i = r - 1 ∨ i = r ∨ i = r + 1) as Hi' by lia.
    assert (j = k - 1 ∨ j = k ∨ j = k + 1) as Hj' by lia.
    destruct Hi' as [-> | [-> | ->]], Hj' as [-> | [-> | ->]];
      try lia; tauto.
Qed.

Lemma get_neighboring_cells_not_self cell ai :
  cell ∉ get_neighboring_cells cell ai.
Proof. rewrite elem_of_get_neighboring_cells. intuition congruence. Qed.

(** * The claims *)

(** ** Sentence *)

(** C1 (the code departs from the claim).  On the sentence
    [{(0,0)} = 1], whose count equals the number of its cells,
    [known_mines] returns the empty set where the claim asks for the whole
    cell set; on [{(0,0)} = 0] it returns the whole cell set where the claim
    asks for the empty set. *)
Theorem known_mines_answers_for_count_zero :
  all_mines (Sentence.mk {[ (0, 0) ]} 1)
  ∧ Sentence.known_mines (Sentence.mk {[ (0, 0) ]} 1) = ∅
  ∧ Sentence.known_mines (Sentence.mk {[ (0, 0) ]} 0) = {[ (0, 0) ]}.
Proof. repeat split. Qed.

(** C2 (the code departs from the claim).  On the sentence
    [{(0,0)} = 0] [known_safes] returns the empty set where the claim asks
    for the whole cell set; on [{(0,0)} = 1] it returns the whole cell set
    where the claim asks for the empty set. *)
Theorem known_safes_answers_for_full_count :
  Sentence.count (Sentence.mk {[ (0, 0) ]} 0) = 0
  ∧ Sentence.known_safes (Sentence.mk {[ (0, 0) ]} 0) = ∅
  ∧ Sentence.known_safes (Sentence.mk {[ (0, 0) ]} 1) = {[ (0, 0) ]}.
Proof. repeat split. Qed.

(** C5, as stated, fails: marking the only cell of the well-formed sentence
    [{(0,0)} = 0] as a mine leaves the count at -1. *)
Lemma mark_mine_zero_count_breaks_wf :
  Sentence.wf (Sentence.mk {[ (0, 0) ]} 0)
  ∧ Sentence.mark_mine (0, 0) (Sentence.mk {[ (0, 0) ]} 0) = Sentence.mk ∅ (-1)
  ∧ ¬ Sentence.wf (Sentence.mark_mine (0, 0) (Sentence.mk {[ (0, 0) ]} 0)).
Proof.
  split; [|split].
  - unfold Sentence.wf. simpl. pose proof (len_nonneg {[ (0, 0) ]}). lia.
  - by vm_compute.
  - intros [Hlo _]. vm_compute in Hlo. by apply Hlo.
Qed.

(** C5, amended.  On a sentence with [0 <= count <= |cells|], [mark_mine]
    removes a member cell and decrements the count, and leaves the sentence
    alone for a cell that is no member; the result has
    [count <= |cells|], and it has [0 <= count] too whenever the cell was no
    member or the count was at least 1. *)
Theorem mark_mine_on_wf_sentence (s : Sentence.t) (cell : Cell) :
  Sentence.wf s →
  (cell ∈ Sentence.cells s →
   Sentence.mark_mine cell s
   = Sentence.mk (Sentence.cells s ∖ {[cell]}) (Sentence.count s - 1))
  ∧ (cell ∉ Sentence.cells s → Sentence.mark_mine cell s = s)
  ∧ Sentence.count (Sentence.mark_mine cell s)
    ≤ len (Sentence.cells (Sentence.mark_mine cell s))
  ∧ (cell ∉ Sentence.cells s ∨ 1 ≤ Sentence.count s →
     Sentence.wf (Sentence.mark_mine cell s)).
Proof.
  intros [Hlo Hhi]. unfold Sentence.mark_mine, Sentence.wf.
  destruct (decide (cell ∈ Sentence.cells s)) as [Hin|Hout]; simpl.
  - rewrite (len_difference_singleton _ _ Hin).
    split; [done|]. split; [done|]. split; [lia|].
    intros [Hno|Hone]; [done|lia].
  - split; [done|]. split; [done|]. split; [lia|]. intros _. lia.
Qed.

(** Marking [(0,0)] in [{(0,0),(0,1)} = 1]. *)
Lemma mark_mine_on_wf_sentence_witness :
  Sentence.wf (Sentence.mk {[ (0, 0); (0, 1) ]} 1)
  ∧ Sentence.wf (Sentence.mark_mine (0, 0) (Sentence.mk {[ (0, 0); (0, 1) ]} 1)).
Proof.
  assert (Sentence.wf (Sentence.mk {[ (0, 0); (0, 1) ]} 1)) as Hwf.
  { unfold Sentence.wf. by vm_compute. }
  split; [exact Hwf|].
  apply (mark_mine_on_wf_sentence _ (0, 0) Hwf). right. simpl. lia.
Defined.

(** ** add_knowledge *)

Lemma sound_init M h w : sound M (init h w).
Proof.
  split; simpl; [|done|done].
  intros x Hx. by apply not_elem_of_empty in Hx.
Qed.

Lemma sound_disjoint M ai : sound M ai → safes ai ∩ mines ai = ∅.
Proof.
  intros [Hs Hm _]. apply set_eq. intros x.
  rewrite elem_of_intersection, elem_of_empty. split; [|done].
  intros [Hx Hy]. apply (Hs x); [done|]. by apply Hm.
Qed.

Lemma add_all_cons cell count clues ai :
  add_all ((cell, count) :: clues) ai
  = add_knowledge cell count ai ≫= add_all clues.
Proof. reflexivity. Qed.

Lemma sound_add_all M h w clues ai :
  sound M ai → same_board ai (init h w) →
  Forall (consistent h w M) clues →
  ∃ ai', add_all clues ai = Ok ai' ∧ sound M ai'.
Proof.
  intros Hai Hb Hclues. revert ai Hai Hb.
  induction Hclues as [|[cell count] clues [Hcell Hcount] _ IH];
    intros ai Hai Hb.
  - by exists ai.
  - rewrite add_all_cons. unfold true_count in Hcount. simpl in Hcell, Hcount.
    rewrite <- (get_neighboring_cells_same_board cell ai) in Hcount by done.
    destruct (sound_add_knowledge M cell count ai Hai Hcell Hcount)
      as (a1 & Hrun & H1).
    rewrite Hrun. simpl. apply IH; [done|].
    eapply same_board_trans; [|exact Hb].
    by apply (same_board_add_knowledge cell count).
Qed.

(** C6.  Start from a fresh engine and record clues that are consistent
    with one mine placement [M]: each clue is that of a safe cell, as
    [add_knowledge] is called for, and its count is the number of mines of
    [M] among the in-bounds neighbours of the cell.  Then every call returns,
    and after each of them [safes] and [mines] are disjoint. *)
Theorem consistent_clues_keep_safes_and_mines_apart
  (h w : Z) (M : gset Cell) (clues : list (Cell * Z)) (k : nat) :
  Forall (consistent h w M) clues →
  ∃ ai, add_all (take k clues) (init h w) = Ok ai ∧ safes ai ∩ mines ai = ∅.
Proof.
  intros Hclues.
  destruct (sound_add_all M h w (take k clues) (init h w)) as (ai & Hrun & Hai).
  - apply sound_init.
  - done.
  - by apply Forall_take.
  - exists ai. split; [done|]. by apply (sound_disjoint M).
Qed.

(** The three clues of the 1 by 6 board. *)
Lemma consistent_clues_keep_safes_and_mines_apart_witness :
  Forall (consistent 1 6 line_mines) line_clues
  ∧ ∃ ai, add_all (take 3 line_clues) (init 1 6) = Ok ai
          ∧ safes ai ∩ mines ai = ∅.
Proof.
  assert (Forall (consistent 1 6 line_mines) line_clues) as Hclues.
  { repeat constructor; by vm_compute. }
  split; [exact Hclues|].
  exact (consistent_clues_keep_safes_and_mines_apart 1 6 line_mines line_clues 3
           Hclues).
Defined.

Lemma record_clue_appends cell count ai :
  count ≠ 0 → count ≠ len (get_neighboring_cells cell ai) →
  knowledge (record_clue cell count ai)
  = map (Sentence.mark_safe cell) (knowledge ai)
    ++ [new_sentence (get_neighboring_cells cell ai) count
          (mark_safe cell ai)].
Proof.
  intros H0 HN. unfold record_clue.
  rewrite (decide_False (P := count = 0)) by done.
  rewrite (decide_False (P := count = len _)) by done.
  reflexivity.
Qed.

(** C7, as stated, fails.  On a 1 by 4 board with a mine at column 1, after
    the clues of columns 0 and 3, the clue [((0,2), 1)] has
    [0 < 1 < |neighbours|] and no neighbour is left once the known safe cell
    and the known mine are taken out; the empty sentence is appended all the
    same. *)
Lemma empty_sentence_is_appended :
  add_all [((0, 0), 1); ((0, 3), 0)] (init 1 4) = Ok settled_row
  ∧ 0 < 1 < len (get_neighboring_cells (0, 2) settled_row)
  ∧ get_neighboring_cells (0, 2) settled_row
      ∖ safes settled_row ∖ mines settled_row = ∅
  ∧ knowledge settled_row = []
  ∧ knowledge (record_clue (0, 2) 1 settled_row) = [Sentence.mk ∅ 0]
  ∧ ∃ ai, add_knowledge (0, 2) 1 settled_row = Ok ai
          ∧ knowledge ai = [Sentence.mk ∅ 0].
Proof.
  split; [by vm_compute|]. split; [by vm_compute|]. split; [by vm_compute|].
  split; [done|]. split; [by vm_compute|].
  eexists. split; [by vm_compute|done].
Qed.

(** C7, amended.  When [add_knowledge] is called with
    [0 < count < |neighbours|], the sentence it builds has for cells the
    neighbours minus the known safe cells minus the known mines, and for
    count the clue minus the number of known mines taken out; it is appended
    to [knowledge] in every case, also when no cell is left, and the call
    returns with one sentence more than before. *)
Theorem add_knowledge_appends_reduced_sentence (ai : t) (cell : Cell) (count : Z) :
  0 < count < len (get_neighboring_cells cell ai) →
  knowledge (record_clue cell count ai)
  = map (Sentence.mark_safe cell) (knowledge ai)
    ++ [Sentence.mk
          (get_neighboring_cells cell ai ∖ safes ai ∖ mines ai)
          (count - len ((get_neighboring_cells cell ai ∖ safes ai) ∩ mines ai))]
  ∧ ∃ ai', add_knowledge cell count ai = Ok ai'
           ∧ length (knowledge ai') = S (length (knowledge ai)).
Proof.
  intros [Hlo Hhi].
  assert (knowledge (record_clue cell count ai)
          = map (Sentence.mark_safe cell) (knowledge ai)
            ++ [Sentence.mk
                  (get_neighboring_cells cell ai ∖ safes ai ∖ mines ai)
                  (count - len ((get_neighboring_cells cell ai ∖ safes ai)
                                ∩ mines ai))]) as Hk.
  { rewrite record_clue_appends by lia. f_equal. f_equal.
    pose proof (get_neighboring_cells_not_self cell ai) as Hself.
    set (N := get_neighboring_cells cell ai) in *.
    unfold new_sentence, Sentence.init. simpl.
    assert (N ∖ (safes ai ∪ {[cell]}) = N ∖ safes ai) as ->.
    { apply set_eq. intros x.
      rewrite !elem_of_difference, elem_of_union, elem_of_singleton.
      split; [tauto|]. intros [Hx Hs]. split; [done|].
      intros [Hin | ->]; [tauto|done]. }
    destruct (decide (0 < len ((N ∖ safes ai) ∩ mines ai) ∧ 0 < count))
      as [_|Hnone].
    - f_equal. apply set_eq. intros x.
      rewrite !elem_of_difference, elem_of_intersection, elem_of_difference.
      tauto.
    - assert (len ((N ∖ safes ai) ∩ mines ai) = 0) as Hz.
      { pose proof (len_nonneg ((N ∖ safes ai) ∩ mines ai)). lia. }
      assert ((N ∖ safes ai) ∩ mines ai = ∅) as Hempty.
      { destruct (decide ((N ∖ safes ai) ∩ mines ai = ∅)) as [|Hne]; [done|].
        apply len_pos_iff in Hne. lia. }
      rewrite Hz, Z.sub_0_r. f_equal. apply set_eq. intros x.
      split; [|by intros [Hx _]%elem_of_difference].
      intros Hx. apply elem_of_difference. split; [done|].
      intros Hm. apply (not_elem_of_empty (C := gset Cell) x).
      rewrite <- Hempty. by apply elem_of_intersection. }
  split; [exact Hk|].
  rewrite add_knowledge_eq. cbv zeta. eexists. split; [reflexivity|].
  destruct (extends_add_knowledge cell count ai _ (add_knowledge_eq cell count ai))
    as (_ & _ & _ & <-).
  rewrite Hk, length_app, length_map. simpl. lia.
Qed.

(** The clue [((0,2), 1)] on the settled 1 by 4 board. *)
Lemma add_knowledge_appends_reduced_sentence_witness :
  0 < 1 < len (get_neighboring_cells (0, 2) settled_row)
  ∧ ∃ ai', add_knowledge (0, 2) 1 settled_row = Ok ai'
           ∧ length (knowledge ai') = S (length (knowledge settled_row)).
Proof.
  assert (0 < 1 < len (get_neighboring_cells (0, 2) settled_row)) as Hrange.
  { by vm_compute. }
  split; [exact Hrange|].
  exact (proj2 (add_knowledge_appends_reduced_sentence settled_row (0, 2) 1 Hrange)).
Defined.

(** C9, as stated, fails.  On a 1 by 1 board whose cell has been played, a
    second clue for the same cell with the count 9, which no cell can have,
    is accepted: the call returns and a sentence with that count is in
    [knowledge]. *)
Lemma replayed_cell_and_wild_count_accepted :
  add_knowledge (0, 0) 0 (init 1 1) = Ok played_cell
  ∧ (0, 0) ∈ moves_made played_cell
  ∧ ¬ (0 ≤ 9 ≤ len (get_neighboring_cells (0, 0) played_cell))
  ∧ add_knowledge (0, 0) 9 played_cell
    = Ok (set_knowledge [Sentence.mk ∅ 9] played_cell).
Proof.
  split; [by vm_compute|]. split; [by vm_compute|]. split; [|by vm_compute].
  intros [_ Hhi]. vm_compute in Hhi. by apply Hhi.
Qed.

(** C9, amended.  [add_knowledge] checks neither argument: for every engine,
    cell and count, the cell being already played or not, it returns
    normally, with the cell in [moves_made] and in [safes]; and with a count
    outside [0 .. |neighbours|] it leaves one sentence more in [knowledge]. *)
Theorem add_knowledge_accepts_every_clue (ai : t) (cell : Cell) (count : Z) :
  ∃ ai', add_knowledge cell count ai = Ok ai'
         ∧ cell ∈ moves_made ai' ∧ cell ∈ safes ai'
         ∧ (¬ (0 ≤ count ≤ len (get_neighboring_cells cell ai)) →
            length (knowledge ai') = S (length (knowledge ai))).
Proof.
  pose proof (add_knowledge_eq cell count ai) as Hrun. cbv zeta in Hrun.
  eexists. split; [exact Hrun|].
  destruct (extends_add_knowledge cell count ai _ Hrun) as (Hm & Hs & _ & Hlen).
  destruct (record_clue_records cell count ai) as [Hmoved Hsafe].
  split; [by apply Hm|]. split; [by apply Hs|].
  intros Hout. rewrite <- Hlen.
  pose proof (len_nonneg (get_neighboring_cells cell ai)).
  rewrite record_clue_appends by lia.
  rewrite length_app, length_map. simpl. lia.
Qed.

(** The count 9 for the one cell of a 1 by 1 board. *)
Lemma add_knowledge_accepts_every_clue_witness :
  ¬ (0 ≤ 9 ≤ len (get_neighboring_cells (0, 0) played_cell))
  ∧ ∃ ai', add_knowledge (0, 0) 9 played_cell = Ok ai'
           ∧ length (knowledge ai') = S (length (knowledge played_cell)).
Proof.
  assert (¬ (0 ≤ 9 ≤ len (get_neighboring_cells (0, 0) played_cell))) as Hout.
  { intros [_ Hhi]. vm_compute in Hhi. by apply Hhi. }
  split; [exact Hout|].
  destruct (add_knowledge_accepts_every_clue played_cell (0, 0) 9)
    as (ai' & Hrun & _ & _ & Hlen).
  exists ai'. split; [exact Hrun|]. exact (Hlen Hout).
Defined.

(** C4 (the code departs from the claim).  On a 1 by 4 board with a mine at
    column 2, the second clue turns the sentence of the first into
    [{(0,0)} = 0]; the sentence is in [knowledge] when the zero-count sweep
    runs, the sweep leaves the engine as it is, and at the end of the call
    [(0,0)] is not in [safes]. *)
Theorem zero_count_sweep_marks_nothing :
  add_knowledge (0, 1) 1 (init 1 4) = Ok row_after_first
  ∧ (a ← remove_known_safes (record_clue (0, 3) 1 row_after_first);
     a ← mark_exact_matches a;
     mark_singleton_mines a) = Ok row_after_second
  ∧ Sentence.mk {[ (0, 0) ]} 0 ∈ knowledge row_after_second
  ∧ mark_zero_count_safes row_after_second = Ok row_after_second
  ∧ add_knowledge (0, 3) 1 row_after_first = Ok row_after_second
  ∧ (0, 0) ∉ safes row_after_second.
Proof.
  split; [by vm_compute|]. split; [by vm_compute|].
  split; [by apply list_elem_of_singleton|].
  split; [apply mark_zero_count_safes_eq|]. split; by vm_compute.
Qed.

(** ** Move selection *)

Lemma make_safe_move_returns ai :
  ∃ r, make_safe_move ai = Ok (r, ai)
       ∧ match r with
         | Some c => c ∈ safes ai ∧ c ∉ moves_made ai
         | None => ∀ c, c ∈ safes ai → c ∈ moves_made ai
         end.
Proof.
  unfold make_safe_move.
  destruct (decide (len (safes ai ∖ moves_made ai) < 1)) as [Hnone|Hsome].
  - exists None. split; [done|]. intros c Hc.
    destruct (decide (c ∈ moves_made ai)) as [|Hout]; [done|].
    assert (safes ai ∖ moves_made ai ≠ ∅) as Hne.
    { intros Hempty. apply (not_elem_of_empty (C := gset Cell) c).
      rewrite <- Hempty. by apply elem_of_difference. }
    apply len_pos_iff in Hne. lia.
  - destruct (set_pop_nonempty (safes ai ∖ moves_made ai)) as (c & Hpop & Hc).
    { apply len_pos_iff. lia. }
    exists (Some c). rewrite Hpop. split; [done|].
    by apply elem_of_difference in Hc.
Qed.

(** C8.  [make_safe_move] returns a cell of [safes] that is not in
    [moves_made] when there is one and [None] when there is none, and the
    engine after the call is the engine before it.  With
    [safes = {(0,0),(1,1)}] and [moves_made = {(0,0)}] the cell is [(1,1)];
    with [(1,1)] in [moves_made] as well the answer is [None]. *)
Theorem make_safe_move_picks_an_unplayed_safe_cell (ai : t) :
  (∃ r, make_safe_move ai = Ok (r, ai)
        ∧ match r with
          | Some c => c ∈ safes ai ∧ c ∉ moves_made ai
          | None => ∀ c, c ∈ safes ai → c ∈ moves_made ai
          end)
  ∧ (safes ai = {[ (0, 0); (1, 1) ]} → moves_made ai = {[ (0, 0) ]} →
     make_safe_move ai = Ok (Some (1, 1), ai))
  ∧ (safes ai = {[ (0, 0); (1, 1) ]} → moves_made ai = {[ (0, 0); (1, 1) ]} →
     make_safe_move ai = Ok (None, ai)).
Proof.
  destruct (make_safe_move_returns ai) as (r & Hrun & Hr).
  split; [by exists r|]. rewrite Hrun. split; intros Hs Hm.
  - destruct r as [c|].
    + destruct Hr as [Hin Hout]. rewrite Hs in Hin. rewrite Hm in Hout.
      apply elem_of_union in Hin as [Hin|Hin]; apply elem_of_singleton in Hin.
      * exfalso. apply Hout. by apply elem_of_singleton.
      * by subst c.
    + exfalso. specialize (Hr (1, 1)). rewrite Hs, Hm in Hr.
      assert ((1, 1) ∈ ({[ (0, 0) ]} : gset Cell)) as Hbad.
      { apply Hr. apply elem_of_union_r. by apply elem_of_singleton. }
      by apply elem_of_singleton in Hbad.
  - destruct r as [c|]; [|done]. exfalso.
    destruct Hr as [Hin Hout]. rewrite Hs in Hin. rewrite Hm in Hout.
    by apply Hout.
Qed.

(** The two engines of scenario D. *)
Lemma make_safe_move_picks_an_unplayed_safe_cell_witness :
  make_safe_move scenario_d = Ok (Some (1, 1), scenario_d)
  ∧ make_safe_move scenario_d_played = Ok (None, scenario_d_played).
Proof.
  split.
  - exact (proj1 (proj2 (make_safe_move_picks_an_unplayed_safe_cell scenario_d))
             eq_refl eq_refl).
  - exact (proj2 (proj2 (make_safe_move_picks_an_unplayed_safe_cell
                           scenario_d_played))
             eq_refl eq_refl).
Defined.


Lemma know_mine_cells_cons ai s :
  s ∈ knowledge ai → all_mines s → ∃ cs l, know_mine_cells ai = cs :: l.
Proof.
  unfold know_mine_cells. induction (knowledge ai) as [|s' l IH]; intros Hs Hall.
  - by apply elem_of_nil in Hs.
  - simpl. destruct (decide (Sentence.count s' = len (Sentence.cells s')
                             ∧ 0 < len (Sentence.cells s'))) as [_|Hnot].
    + by eexists _, _.
    + apply elem_of_cons in Hs as [->|Hs]; [done|]. simpl. by apply IH.
Qed.


(** C3 (the code departs from the claim).  After three truthful clues on a
    1 by 6 board with mines at columns 1 and 5, [knowledge] holds the
    sentence [{(0,5)} = 1]; the cell [(0,3)] is on the board, not in
    [moves_made] and in no sentence, and [make_random_move] raises
    [TypeError] where the claim has it return a cell. *)
Theorem make_random_move_raises_after_three_clues :
  Forall (consistent 1 6 line_mines) line_clues
  ∧ add_all line_clues (init 1 6) = Ok line_engine
  ∧ (0, 3) ∈ board_cells (height line_engine) (width line_engine)
  ∧ ((0, 3) ∉ moves_made line_engine)
  ∧ Forall (λ s, ((0, 3) ∉ Sentence.cells s)) (knowledge line_engine)
  ∧ make_random_move line_engine = Raise TypeError.
Proof.
  split; [repeat constructor; by vm_compute|].
  split; [by vm_compute|].
  split; [rewrite elem_of_board_cells; simpl; lia|].
  split; [by vm_compute|].
  split; [repeat constructor; by vm_compute|]. by vm_compute.
Qed.

(** C10.  With a sentence in [knowledge] whose count equals the number of
    its cells, and which has a cell, [make_random_move] returns nothing: it
    raises [TypeError], since the cell set of that sentence is put as one
    element in the list that [set] is then asked to hash. *)
Theorem make_random_move_raises_type_error (ai : t) (s : Sentence.t) :
  s ∈ knowledge ai → all_mines s → make_random_move ai = Raise TypeError.
Proof.
  intros Hs Hall. unfold make_random_move.
  destruct (know_mine_cells_cons ai s Hs Hall) as (cs & l & ->). reflexivity.
Qed.

(** A 2 by 2 board with the sentence [{(0,0),(1,1)} = 2]. *)
Lemma make_random_move_raises_type_error_witness :
  Sentence.mk {[ (0, 0); (1, 1) ]} 2
    ∈ knowledge (mk 2 2 ∅ ∅ ∅ [Sentence.mk {[ (0, 0); (1, 1) ]} 2])
  ∧ all_mines (Sentence.mk {[ (0, 0); (1, 1) ]} 2)
  ∧ make_random_move (mk 2 2 ∅ ∅ ∅ [Sentence.mk {[ (0, 0); (1, 1) ]} 2])
    = Raise TypeError.
Proof.
  assert (Sentence.mk {[ (0, 0); (1, 1) ]} 2
            ∈ knowledge (mk 2 2 ∅ ∅ ∅ [Sentence.mk {[ (0, 0); (1, 1) ]} 2]))
    as Hin by (simpl; apply list_elem_of_singleton; reflexivity).
  assert (all_mines (Sentence.mk {[ (0, 0); (1, 1) ]} 2)) as Hall
    by (split; reflexivity).
  split; [exact Hin|]. split; [exact Hall|].
  exact (make_random_move_raises_type_error _ _ Hin Hall).
Defined.

(** * Further properties of the code *)

(** ** Sentence: marking cells *)

Lemma sentence_mark_safe_twice c s :
  Sentence.mark_safe c (Sentence.mark_safe c s) = Sentence.mark_safe c s.
Proof.
  unfold Sentence.mark_safe at 2 3.
  destruct (decide (c ∈ Sentence.cells s)) as [Hin|Hout].
  - unfold Sentence.mark_safe. simpl. rewrite decide_False; [done|].
    rewrite elem_of_difference, elem_of_singleton. tauto.
  - unfold Sentence.mark_safe. by rewrite decide_False.
Qed.

Lemma sentence_mark_mine_twice c s :
  Sentence.mark_mine c (Sentence.mark_mine c s) = Sentence.mark_mine c s.
Proof.
  unfold Sentence.mark_mine at 2 3.
  destruct (decide (c ∈ Sentence.cells s)) as [Hin|Hout].
  - unfold Sentence.mark_mine. simpl. rewrite decide_False; [done|].
    rewrite elem_of_difference, elem_of_singleton. tauto.
  - unfold Sentence.mark_mine. by rewrite decide_False.
Qed.

Lemma difference_singletons_comm (a b : Cell) (X : gset Cell) :
  X ∖ {[a]} ∖ {[b]} = X ∖ {[b]} ∖ {[a]}.
Proof.
  apply set_eq. intros x. rewrite !elem_of_difference, !elem_of_singleton. tauto.
Qed.

Lemma elem_of_difference_other (a b : Cell) (X : gset Cell) :
  a ≠ b → a ∈ X ∖ {[b]} ↔ a ∈ X.
Proof.
  intros Hne. rewrite elem_of_difference, elem_of_singleton. tauto.
Qed.

Lemma sentence_mark_safe_comm a b s :
  Sentence.mark_safe a (Sentence.mark_safe b s)
  = Sentence.mark_safe b (Sentence.mark_safe a s).
Proof.
  destruct (decide (a = b)) as [->|Hne]; [done|].
  unfold Sentence.mark_safe.
  destruct (decide (a ∈ Sentence.cells s)) as [Ha|Ha],
           (decide (b ∈ Sentence.cells s)) as [Hb|Hb]; simpl;
    rewrite ?(decide_True (P := a ∈ _ ∖ {[b]}))
      by (by apply elem_of_difference_other);
    rewrite ?(decide_True (P := b ∈ _ ∖ {[a]}))
      by (by apply elem_of_difference_other);
    rewrite ?(decide_False (P := a ∈ _ ∖ {[b]}))
      by (by rewrite elem_of_difference_other);
    rewrite ?(decide_False (P := b ∈ _ ∖ {[a]}))
      by (by rewrite elem_of_difference_other);
    rewrite ?(decide_True (P := a ∈ Sentence.cells s)) by done;
    rewrite ?(decide_True (P := b ∈ Sentence.cells s)) by done;
    rewrite ?(decide_False (P := a ∈ Sentence.cells s)) by done;
    rewrite ?(decide_False (P := b ∈ Sentence.cells s)) by done;
    simpl; try done.
  by rewrite difference_singletons_comm.
Qed.

Lemma sentence_mark_mine_comm a b s :
  Sentence.mark_mine a (Sentence.mark_mine b s)
  = Sentence.mark_mine b (Sentence.mark_mine a s).
Proof.
  destruct (decide (a = b)) as [->|Hne]; [done|].
  unfold Sentence.mark_mine.
  destruct (decide (a ∈ Sentence.cells s)) as [Ha|Ha],
           (decide (b ∈ Sentence.cells s)) as [Hb|Hb]; simpl;
    rewrite ?(decide_True (P := a ∈ _ ∖ {[b]}))
      by (by apply elem_of_difference_other);
    rewrite ?(decide_True (P := b ∈ _ ∖ {[a]}))
      by (by apply elem_of_difference_other);
    rewrite ?(decide_False (P := a ∈ _ ∖ {[b]}))
      by (by rewrite elem_of_difference_other);
    rewrite ?(decide_False (P := b ∈ _ ∖ {[a]}))
      by (by rewrite elem_of_difference_other);
    rewrite ?(decide_True (P := a ∈ Sentence.cells s)) by done;
    rewrite ?(decide_True (P := b ∈ Sentence.cells s)) by done;
    rewrite ?(decide_False (P := a ∈ Sentence.cells s)) by done;
    rewrite ?(decide_False (P := b ∈ Sentence.cells s)) by done;
    simpl; try done.
  by rewrite difference_singletons_comm.
Qed.

Lemma sentence_mark_safe_mine_comm a b s :
  a ≠ b →
  Sentence.mark_safe a (Sentence.mark_mine b s)
  = Sentence.mark_mine b (Sentence.mark_safe a s).
Proof.
  intros Hne. unfold Sentence.mark_safe, Sentence.mark_mine.
  destruct (decide (a ∈ Sentence.cells s)) as [Ha|Ha],
           (decide (b ∈ Sentence.cells s)) as [Hb|Hb]; simpl;
    rewrite ?(decide_True (P := a ∈ _ ∖ {[b]}))
      by (by apply elem_of_difference_other);
    rewrite ?(decide_True (P := b ∈ _ ∖ {[a]}))
      by (by apply elem_of_difference_other);
    rewrite ?(decide_False (P := a ∈ _ ∖ {[b]}))
      by (by rewrite elem_of_difference_other);
    rewrite ?(decide_False (P := b ∈ _ ∖ {[a]}))
      by (by rewrite elem_of_difference_other);
    rewrite ?(decide_True (P := a ∈ Sentence.cells s)) by done;
    rewrite ?(decide_True (P := b ∈ Sentence.cells s)) by done;
    rewrite ?(decide_False (P := a ∈ Sentence.cells s)) by done;
    rewrite ?(decide_False (P := b ∈ Sentence.cells s)) by done;
    simpl; try done.
  by rewrite difference_singletons_comm.
Qed.

(** X1.  Marking a cell twice in a sentence is the same as marking it once,
    for [mark_safe] and for [mark_mine]: the second call finds the cell gone
    and does not decrement the count again. *)
Theorem sentence_marks_are_idempotent (c : Cell) (s : Sentence.t) :
  Sentence.mark_safe c (Sentence.mark_safe c s) = Sentence.mark_safe c s
  ∧ Sentence.mark_mine c (Sentence.mark_mine c s) = Sentence.mark_mine c s.
Proof. split; [apply sentence_mark_safe_twice|apply sentence_mark_mine_twice]. Qed.

(** X2.  On a sentence, marks of two different cells can be swapped,
    whatever the kinds of the two marks; for one and the same cell the first
    mark decides, so [mark_mine] after [mark_safe] leaves the count as it
    was. *)
Theorem sentence_marks_commute (a b : Cell) (s : Sentence.t) :
  a ≠ b →
  Sentence.mark_safe a (Sentence.mark_safe b s)
  = Sentence.mark_safe b (Sentence.mark_safe a s)
  ∧ Sentence.mark_mine a (Sentence.mark_mine b s)
    = Sentence.mark_mine b (Sentence.mark_mine a s)
  ∧ Sentence.mark_safe a (Sentence.mark_mine b s)
    = Sentence.mark_mine b (Sentence.mark_safe a s)
  ∧ Sentence.count (Sentence.mark_mine a (Sentence.mark_safe a s))
    = Sentence.count s.
Proof.
  intros Hne. split; [apply sentence_mark_safe_comm|].
  split; [apply sentence_mark_mine_comm|].
  split; [by apply sentence_mark_safe_mine_comm|].
  unfold Sentence.mark_mine, Sentence.mark_safe.
  destruct (decide (a ∈ Sentence.cells s)) as [Ha|Ha]; simpl.
  - rewrite decide_False; [done|].
    rewrite elem_of_difference, elem_of_singleton. tauto.
  - by rewrite decide_False.
Qed.

(** Two cells of the sentence [{(0,0),(0,1)} = 1]. *)
Lemma sentence_marks_commute_witness :
  Sentence.mark_safe (0, 0) (Sentence.mark_mine (0, 1)
                               (Sentence.mk {[ (0, 0); (0, 1) ]} 1))
  = Sentence.mark_mine (0, 1) (Sentence.mark_safe (0, 0)
                                 (Sentence.mk {[ (0, 0); (0, 1) ]} 1)).
Proof.
  assert ((0, 0) ≠ ((0, 1) : Cell)) as Hne by (intros [=]).
  exact (proj1 (proj2 (proj2 (sentence_marks_commute (0, 0) (0, 1)
                                (Sentence.mk {[ (0, 0); (0, 1) ]} 1) Hne)))).
Defined.

(** ** Engine: marking cells *)

Lemma union_singletons_comm (a b : Cell) (X : gset Cell) :
  X ∪ {[a]} ∪ {[b]} = X ∪ {[b]} ∪ {[a]}.
Proof.
  apply set_eq. intros x. rewrite !elem_of_union, !elem_of_singleton. tauto.
Qed.

Lemma union_singleton_twice (a : Cell) (X : gset Cell) :
  X ∪ {[a]} ∪ {[a]} = X ∪ {[a]}.
Proof.
  apply set_eq. intros x. rewrite !elem_of_union, !elem_of_singleton. tauto.
Qed.

Lemma mark_safe_comm a b ai :
  mark_safe a (mark_safe b ai) = mark_safe b (mark_safe a ai).
Proof.
  unfold mark_safe. simpl. f_equal; [apply union_singletons_comm|].
  rewrite !map_map. apply map_ext. intros s. apply sentence_mark_safe_comm.
Qed.

Lemma mark_mine_comm a b ai :
  mark_mine a (mark_mine b ai) = mark_mine b (mark_mine a ai).
Proof.
  unfold mark_mine. simpl.
  f_equal; [apply union_singletons_comm|apply union_singletons_comm|].
  rewrite !map_map. apply map_ext. intros s. apply sentence_mark_mine_comm.
Qed.

Lemma foldl_permutation_comm (body : Cell → t → t) (l l' : list Cell) ai :
  (∀ a b x, body a (body b x) = body b (body a x)) →
  l ≡ₚ l' →
  foldl (λ a c, body c a) ai l = foldl (λ a c, body c a) ai l'.
Proof.
  intros Hcomm Hperm. revert ai.
  induction Hperm as [|c l l' _ IH|a b l|l1 l2 l3 _ IH1 _ IH2]; intros ai; simpl.
  - done.
  - apply IH.
  - by rewrite Hcomm.
  - by rewrite IH1.
Qed.

(** X3.  Marking a cell on the engine twice is the same as marking it once,
    for [mark_safe] and for [mark_mine]. *)
Theorem engine_marks_are_idempotent (c : Cell) (ai : t) :
  mark_safe c (mark_safe c ai) = mark_safe c ai
  ∧ mark_mine c (mark_mine c ai) = mark_mine c ai.
Proof.
  split.
  - unfold mark_safe. simpl. f_equal; [apply union_singleton_twice|].
    rewrite map_map. apply map_ext. intros s. apply sentence_mark_safe_twice.
  - unfold mark_mine. simpl.
    f_equal; [apply union_singleton_twice|apply union_singleton_twice|].
    rewrite map_map. apply map_ext. intros s. apply sentence_mark_mine_twice.
Qed.

(** X4.  Marking all the cells of a set, as safe or as mines, gives the same
    engine whatever the order in which the set is walked. *)
Theorem marking_a_set_ignores_the_order (l : list Cell) (cs : gset Cell) (ai : t) :
  l ≡ₚ elements cs →
  foldl (λ a c, mark_safe c a) ai l = for_cells mark_safe cs ai
  ∧ foldl (λ a c, mark_mine c a) ai l = for_cells mark_mine cs ai.
Proof.
  intros Hperm. unfold for_cells. split.
  - apply (foldl_permutation_comm mark_safe); [|done].
    intros a b x. apply mark_safe_comm.
  - apply (foldl_permutation_comm mark_mine); [|done].
    intros a b x. apply mark_mine_comm.
Qed.

(** The set [{(0,0),(0,1)}] walked from its last element to its first. *)
Lemma marking_a_set_ignores_the_order_witness :
  foldl (λ a c, mark_safe c a) (init 1 3)
        (reverse (elements ({[ (0, 0); (0, 1) ]} : gset Cell)))
  = for_cells mark_safe {[ (0, 0); (0, 1) ]} (init 1 3).
Proof.
  exact (proj1 (marking_a_set_ignores_the_order
                  (reverse (elements ({[ (0, 0); (0, 1) ]} : gset Cell)))
                  {[ (0, 0); (0, 1) ]} (init 1 3)
                  (reverse_Permutation _))).
Defined.

Lemma not_elem_of_sentence_mark_safe c s :
  c ∉ Sentence.cells (Sentence.mark_safe c s).
Proof.
  unfold Sentence.mark_safe.
  destruct (decide (c ∈ Sentence.cells s)); simpl; [|done].
  rewrite elem_of_difference, elem_of_singleton. tauto.
Qed.

Lemma not_elem_of_sentence_mark_mine c s :
  c ∉ Sentence.cells (Sentence.mark_mine c s).
Proof.
  unfold Sentence.mark_mine.
  destruct (decide (c ∈ Sentence.cells s)); simpl; [|done].
  rewrite elem_of_difference, elem_of_singleton. tauto.
Qed.

(** X5.  After [mark_mine(cell)] the cell is in [mines] and in [moves_made]
    and in no sentence, and [safes] is as before; after [mark_safe(cell)] the
    cell is in [safes] and in no sentence, and [moves_made] and [mines] are
    as before.  Neither call adds or drops a sentence. *)
Theorem engine_marks_clear_the_cell (cell : Cell) (ai : t) :
  (cell ∈ mines (mark_mine cell ai) ∧ cell ∈ moves_made (mark_mine cell ai)
   ∧ Forall (λ s, cell ∉ Sentence.cells s) (knowledge (mark_mine cell ai))
   ∧ safes (mark_mine cell ai) = safes ai
   ∧ length (knowledge (mark_mine cell ai)) = length (knowledge ai))
  ∧ (cell ∈ safes (mark_safe cell ai)
     ∧ Forall (λ s, cell ∉ Sentence.cells s) (knowledge (mark_safe cell ai))
     ∧ moves_made (mark_safe cell ai) = moves_made ai
     ∧ mines (mark_safe cell ai) = mines ai
     ∧ length (knowledge (mark_safe cell ai)) = length (knowledge ai)).
Proof.
  split; simpl.
  - split; [apply elem_of_union_r; by apply elem_of_singleton|].
    split; [apply elem_of_union_r; by apply elem_of_singleton|].
    split; [|split; [done|by rewrite length_map]].
    apply Forall_fmap, Forall_forall. intros s _.
    apply not_elem_of_sentence_mark_mine.
  - split; [apply elem_of_union_r; by apply elem_of_singleton|].
    split; [|split; [done|split; [done|by rewrite length_map]]].
    apply Forall_fmap, Forall_forall. intros s _.
    apply not_elem_of_sentence_mark_safe.
Qed.

(** ** Neighbours *)

Lemma size_list_to_set_le (l : list Cell) :
  (size (list_to_set l : gset Cell) ≤ length l)%nat.
Proof.
  induction l as [|x l IH].
  - vm_compute. lia.
  - rewrite list_to_set_cons, size_union_alt, size_singleton. simpl.
    assert (size (list_to_set l ∖ {[x]} : gset Cell)
            ≤ size (list_to_set l : gset Cell))%nat as Hle.
    { apply subseteq_size. intros y. rewrite elem_of_difference. tauto. }
    lia.
Qed.

Lemma get_neighboring_cells_among_eight (c cell : Cell) ai :
  c ∈ get_neighboring_cells cell ai →
  c ∈ [ (cell.1 - 1, cell.2); (cell.1 + 1, cell.2); (cell.1, cell.2 - 1);
        (cell.1 - 1, cell.2 - 1); (cell.1 + 1, cell.2 - 1); (cell.1, cell.2 + 1);
        (cell.1 - 1, cell.2 + 1); (cell.1 + 1, cell.2 + 1) ].
Proof.
  unfold get_neighboring_cells. cbv zeta.
  rewrite !elem_of_add_if_on_board, elem_of_empty, !elem_of_cons.
  intros Hc. repeat destruct Hc as [Hc|Hc]; try done;
    destruct Hc as [-> _]; tauto.
Qed.

(** X6.  [get_neighboring_cells(cell)] is the set of the cells of the board
    that are one step away from [cell] in a row, a column or a diagonal; the
    cell itself is never among them, and there are at most 8 of them.  The
    cell need not be on the board. *)
Theorem get_neighboring_cells_are_the_adjacent_board_cells (cell : Cell) (ai : t) :
  (∀ c, c ∈ get_neighboring_cells cell ai ↔
        c ∈ board_cells (height ai) (width ai)
        ∧ (cell.1 - 1 ≤ c.1 ≤ cell.1 + 1) ∧ (cell.2 - 1 ≤ c.2 ≤ cell.2 + 1)
        ∧ c ≠ cell)
  ∧ (cell ∉ get_neighboring_cells cell ai)
  ∧ 0 ≤ len (get_neighboring_cells cell ai) ≤ 8.
Proof.
  split; [|split].
  - intros c. rewrite elem_of_get_neighboring_cells, elem_of_board_cells. tauto.
  - rewrite elem_of_get_neighboring_cells. tauto.
  - split; [apply len_nonneg|]. unfold len.
    set (l := [ (cell.1 - 1, cell.2); (cell.1 + 1, cell.2); (cell.1, cell.2 - 1);
                (cell.1 - 1, cell.2 - 1); (cell.1 + 1, cell.2 - 1);
                (cell.1, cell.2 + 1); (cell.1 - 1, cell.2 + 1);
                (cell.1 + 1, cell.2 + 1) ]).
    pose proof (size_list_to_set_le l) as Hsize.
    assert (get_neighboring_cells cell ai ⊆ list_to_set l) as Hsub.
    { intros c Hc. apply elem_of_list_to_set.
      by apply get_neighboring_cells_among_eight in Hc. }
    apply subseteq_size in Hsub.
    assert (length l = 8%nat) as Hlen by reflexivity. lia.
Qed.

(** X7.  Being neighbours is symmetric between cells of the board: when
    [cell] is on the board and [c] is one of its neighbours, [cell] is one of
    the neighbours of [c]. *)
Theorem get_neighboring_cells_is_symmetric (c cell : Cell) (ai : t) :
  cell ∈ board_cells (height ai) (width ai) →
  c ∈ get_neighboring_cells cell ai →
  cell ∈ get_neighboring_cells c ai.
Proof.
  rewrite elem_of_board_cells, !elem_of_get_neighboring_cells.
  intros [Hi Hj] (_ & _ & Hr & Hk & Hne).
  split; [done|]. split; [done|]. split; [lia|]. split; [lia|]. congruence.
Qed.

(** The corner of a 3 by 3 board and the centre. *)
Lemma get_neighboring_cells_is_symmetric_witness :
  (0, 0) ∈ get_neighboring_cells (1, 1) (init 3 3).
Proof.
  apply (get_neighboring_cells_is_symmetric (1, 1) (0, 0) (init 3 3)).
  - apply elem_of_board_cells. simpl. lia.
  - by vm_compute.
Defined.

(** ** The blocks of add_knowledge *)

Lemma drop_counted_mine_absent cell s :
  cell ∉ Sentence.cells s → drop_counted_mine cell s = s.
Proof.
  intros Hout. unfold drop_counted_mine.
  destruct (decide (1 < Sentence.count s)); [|done].
  by rewrite decide_False.
Qed.

(** X8.  [remove_mine_from_sentences_with_counts_greater_than_1] never
    raises and returns [True]; it touches neither the three sets nor the
    number of sentences.  Called on a cell that [mark_mine] has just marked,
    as on line 251, it changes nothing at all. *)
Theorem remove_mine_after_mark_mine_changes_nothing (cell : Cell) (ai : t) :
  (∃ ai', remove_mine_from_sentences_with_counts_greater_than_1 cell ai
          = Ok (true, ai')
          ∧ moves_made ai' = moves_made ai ∧ mines ai' = mines ai
          ∧ safes ai' = safes ai
          ∧ length (knowledge ai') = length (knowledge ai))
  ∧ remove_mine_from_sentences_with_counts_greater_than_1 cell
      (mark_mine cell ai)
    = Ok (true, mark_mine cell ai).
Proof.
  split.
  - eexists. split; [apply remove_mine_from_sentences_eq|]. simpl.
    by rewrite length_map.
  - rewrite remove_mine_from_sentences_eq. do 2 f_equal.
    unfold mark_mine, set_knowledge. simpl. f_equal.
    rewrite map_map. apply map_ext. intros s.
    apply drop_counted_mine_absent, not_elem_of_sentence_mark_mine.
Qed.

(** X9.  The singleton rule of lines 256-260 and the zero-count sweep of
    lines 263-268 never change the engine and never raise: the first asks
    [known_mines] about a sentence of count 1, the second asks [known_safes]
    about a sentence of count 0, and both get the empty set. *)
Theorem singleton_rule_and_zero_sweep_are_inert (ai : t) :
  mark_singleton_mines ai = Ok ai ∧ mark_zero_count_safes ai = Ok ai.
Proof.
  split; [apply mark_singleton_mines_eq|apply mark_zero_count_safes_eq].
Qed.

Lemma foldl_keeps (P : t → Prop) (body : Cell → t → t) l ai :
  (∀ c a, P a → P (body c a)) → P ai → P (foldl (λ a c, body c a) ai l).
Proof.
  intros Hbody. revert ai.
  induction l as [|c l IH]; intros ai Hai; simpl; [done|].
  apply IH. by apply Hbody.
Qed.

Lemma foldl_mark_safe_marks l ai c :
  c ∈ l → c ∈ safes (foldl (λ a x, mark_safe x a) ai l).
Proof.
  revert ai. induction l as [|x l IH]; intros ai Hc; simpl.
  - by apply elem_of_nil in Hc.
  - apply elem_of_cons in Hc as [->|Hc]; [|by apply IH].
    destruct (extends_foldl mark_safe l (mark_safe x ai) extends_mark_safe)
      as (_ & Hs & _).
    apply Hs. simpl. apply elem_of_union_r. by apply elem_of_singleton.
Qed.

Lemma foldl_mark_mine_marks l ai c :
  c ∈ l →
  c ∈ mines (foldl (λ a x, mark_mine x a) ai l)
  ∧ c ∈ moves_made (foldl (λ a x, mark_mine x a) ai l).
Proof.
  revert ai. induction l as [|x l IH]; intros ai Hc; simpl.
  - by apply elem_of_nil in Hc.
  - apply elem_of_cons in Hc as [->|Hc]; [|by apply IH].
    destruct (extends_foldl mark_mine l (mark_mine x ai) extends_mark_mine)
      as (Hm & _ & Hn & _).
    split; [apply Hn|apply Hm]; simpl; apply elem_of_union_r;
      by apply elem_of_singleton.
Qed.

(** X10.  The two shortcuts of [add_knowledge].  With the count 0 every
    neighbour of the cell is in [safes] when the call returns; with a count
    other than 0 that equals the number of neighbours, every neighbour is in
    [mines] and in [moves_made]. *)
Theorem add_knowledge_settles_all_neighbours (ai : t) (cell : Cell) (count : Z) :
  ∃ ai', add_knowledge cell count ai = Ok ai'
         ∧ (count = 0 → get_neighboring_cells cell ai ⊆ safes ai')
         ∧ (count ≠ 0 → count = len (get_neighboring_cells cell ai) →
            get_neighboring_cells cell ai ⊆ mines ai'
            ∧ get_neighboring_cells cell ai ⊆ moves_made ai').
Proof.
  pose proof (add_knowledge_eq cell count ai) as Hrun. cbv zeta in Hrun.
  eexists. split; [exact Hrun|].
  destruct (extends_add_knowledge cell count ai _ Hrun) as (Hm & Hs & Hn & _).
  split.
  - intros H0 c Hc. apply Hs. unfold record_clue.
    rewrite (decide_True (P := count = 0)) by done.
    apply foldl_mark_safe_marks. by apply elem_of_elements.
  - intros H0 HN.
    assert (∀ c, c ∈ get_neighboring_cells cell ai →
                 c ∈ mines (record_clue cell count ai)
                 ∧ c ∈ moves_made (record_clue cell count ai)) as Hboth.
    { intros c Hc. unfold record_clue.
      rewrite (decide_False (P := count = 0)) by done.
      rewrite (decide_True (P := count = len _)) by done.
      apply foldl_mark_mine_marks. by apply elem_of_elements. }
    split; intros c Hc; [apply Hn|apply Hm]; by apply Hboth.
Qed.

(** The corner of a fresh 3 by 3 board with the count 0. *)
Lemma add_knowledge_settles_all_neighbours_witness :
  ∃ ai', add_knowledge (0, 0) 0 (init 3 3) = Ok ai'
         ∧ get_neighboring_cells (0, 0) (init 3 3) ⊆ safes ai'.
Proof.
  destruct (add_knowledge_settles_all_neighbours (init 3 3) (0, 0) 0)
    as (ai' & Hrun & Hsafe & _).
  exists ai'. split; [exact Hrun|]. exact (Hsafe eq_refl).
Defined.

Lemma record_clue_grows cell count ai :
  moves_made ai ⊆ moves_made (record_clue cell count ai)
  ∧ safes ai ⊆ safes (record_clue cell count ai)
  ∧ mines ai ⊆ mines (record_clue cell count ai)
  ∧ (length (knowledge ai) ≤ length (knowledge (record_clue cell count ai))
     ≤ S (length (knowledge ai)))%nat.
Proof.
  unfold record_clue. set (a1 := mark_safe cell _).
  assert (moves_made ai ⊆ moves_made a1 ∧ safes ai ⊆ safes a1
          ∧ mines ai ⊆ mines a1
          ∧ length (knowledge a1) = length (knowledge ai)) as (Hm & Hs & Hn & Hk).
  { simpl. rewrite length_map.
    split; [apply union_subseteq_l|]. split; [apply union_subseteq_l|done]. }
  assert (get_neighboring_cells cell a1 = get_neighboring_cells cell ai) as ->
    by done.
  clearbody a1.
  destruct (decide (count = 0)); [|destruct (decide (count = len _))].
  - destruct (extends_foldl mark_safe
                (elements (get_neighboring_cells cell ai)) a1 extends_mark_safe)
      as (Hm' & Hs' & Hn' & Hk').
    unfold for_cells. rewrite <- Hk', Hk.
    split; [by etrans|]. split; [by etrans|]. split; [by etrans|lia].
  - destruct (extends_foldl mark_mine
                (elements (get_neighboring_cells cell ai)) a1 extends_mark_mine)
      as (Hm' & Hs' & Hn' & Hk').
    unfold for_cells. rewrite <- Hk', Hk.
    split; [by etrans|]. split; [by etrans|]. split; [by etrans|lia].
  - simpl. rewrite length_app, Hk. simpl.
    split; [done|]. split; [done|]. split; [done|lia].
Qed.

(** X11.  [add_knowledge] only adds: for every engine, cell and count the
    call returns an engine on the same board in which [moves_made], [safes]
    and [mines] contain what they contained before, and [knowledge] has as
    many sentences as before or one more.  No sentence is ever taken out of
    the list. *)
Theorem add_knowledge_only_adds (ai : t) (cell : Cell) (count : Z) :
  ∃ ai', add_knowledge cell count ai = Ok ai'
         ∧ height ai' = height ai ∧ width ai' = width ai
         ∧ moves_made ai ⊆ moves_made ai'
         ∧ safes ai ⊆ safes ai'
         ∧ mines ai ⊆ mines ai'
         ∧ (length (knowledge ai) ≤ length (knowledge ai')
            ≤ S (length (knowledge ai)))%nat.
Proof.
  pose proof (add_knowledge_eq cell count ai) as Hrun. cbv zeta in Hrun.
  eexists. split; [exact Hrun|].
  destruct (same_board_add_knowledge cell count ai _ Hrun) as [Hh Hw].
  destruct (extends_add_knowledge cell count ai _ Hrun) as (Hm & Hs & Hn & Hk).
  destruct (record_clue_grows cell count ai) as (Hm' & Hs' & Hn' & Hk').
  split; [done|]. split; [done|].
  split; [by etrans|]. split; [by etrans|]. split; [by etrans|].
  rewrite <- Hk. exact Hk'.
Qed.

(** ** Engines reached from a fresh one *)

Lemma no_safe_mark_safe c ai :
  no_safe_cell_in_sentences ai → no_safe_cell_in_sentences (mark_safe c ai).
Proof.
  unfold no_safe_cell_in_sentences. intros Hai. simpl.
  apply Forall_fmap. eapply Forall_impl; [exact Hai|].
  intros s Hs x. simpl. unfold Sentence.mark_safe.
  rewrite elem_of_union, elem_of_singleton. specialize (Hs x).
  destruct (decide (c ∈ Sentence.cells s)); simpl;
    rewrite ?elem_of_difference, ?elem_of_singleton;
    intuition congruence.
Qed.

Lemma no_safe_mark_mine c ai :
  no_safe_cell_in_sentences ai → no_safe_cell_in_sentences (mark_mine c ai).
Proof.
  unfold no_safe_cell_in_sentences. intros Hai. simpl.
  apply Forall_fmap. eapply Forall_impl; [exact Hai|].
  intros s Hs x. simpl. unfold Sentence.mark_mine. specialize (Hs x).
  destruct (decide (c ∈ Sentence.cells s)); simpl;
    rewrite ?elem_of_difference; tauto.
Qed.

Lemma no_safe_mark_exact_match c ai :
  no_safe_cell_in_sentences ai → no_safe_cell_in_sentences (mark_exact_match c ai).
Proof.
  intros Hai. apply (no_safe_mark_mine c) in Hai.
  unfold no_safe_cell_in_sentences, mark_exact_match in *. simpl in *.
  apply Forall_fmap. eapply Forall_impl; [exact Hai|].
  intros s Hs x. simpl. unfold drop_counted_mine. specialize (Hs x).
  destruct (decide (1 < Sentence.count s)); [|done].
  destruct (decide (c ∈ Sentence.cells s)); simpl;
    rewrite ?elem_of_difference; tauto.
Qed.

Lemma no_safe_new_sentence N count ai :
  Sentence.cells (new_sentence N count ai) ## safes ai.
Proof.
  unfold new_sentence, Sentence.init. intros x.
  destruct (decide (0 < len ((N ∖ safes ai) ∩ mines ai) ∧ 0 < count)); simpl;
    rewrite ?elem_of_difference; tauto.
Qed.

Lemma no_safe_record_clue cell count ai :
  no_safe_cell_in_sentences ai →
  no_safe_cell_in_sentences (record_clue cell count ai).
Proof.
  intros Hai. unfold record_clue. set (a1 := mark_safe cell _).
  assert (no_safe_cell_in_sentences a1) as H1
    by (by apply (no_safe_mark_safe cell) in Hai).
  clearbody a1.
  destruct (decide (count = 0)); [|destruct (decide (count = len _))].
  - apply (foldl_keeps no_safe_cell_in_sentences mark_safe); [|done].
    intros c a. apply no_safe_mark_safe.
  - apply (foldl_keeps no_safe_cell_in_sentences mark_mine); [|done].
    intros c a. apply no_safe_mark_mine.
  - unfold no_safe_cell_in_sentences. simpl. apply Forall_app.
    split; [exact H1|]. apply Forall_singleton, no_safe_new_sentence.
Qed.

Lemma drop_safes_nothing_to_drop sf s :
  Sentence.cells s ## sf → drop_safes sf s = s.
Proof.
  intros Hdisj. unfold drop_safes.
  destruct (decide (0 < Sentence.count s)); [|done].
  destruct s as [cs n]. simpl in *. f_equal.
  apply set_eq. intros x. rewrite elem_of_difference. specialize (Hdisj x).
  tauto.
Qed.

Lemma map_drop_safes_nothing_to_drop ai :
  no_safe_cell_in_sentences ai →
  map (drop_safes (safes ai)) (knowledge ai) = knowledge ai.
Proof.
  intros Hai. transitivity (map id (knowledge ai)); [|apply map_id].
  apply map_ext_Forall. eapply Forall_impl; [exact Hai|].
  intros s Hs. by apply drop_safes_nothing_to_drop.
Qed.

Lemma remove_known_safes_nothing_to_drop ai :
  no_safe_cell_in_sentences ai → remove_known_safes ai = Ok ai.
Proof.
  intros Hai. rewrite remove_known_safes_eq.
  by rewrite map_drop_safes_nothing_to_drop, set_knowledge_same.
Qed.

Lemma no_safe_add_knowledge cell count ai :
  no_safe_cell_in_sentences ai →
  ∃ ai', add_knowledge cell count ai = Ok ai' ∧ no_safe_cell_in_sentences ai'.
Proof.
  intros Hai. pose proof (add_knowledge_eq cell count ai) as Hrun.
  cbv zeta in Hrun. eexists. split; [exact Hrun|].
  apply (no_safe_record_clue cell count) in Hai.
  set (a1 := record_clue cell count ai) in *. clearbody a1.
  rewrite (map_drop_safes_nothing_to_drop a1 Hai), set_knowledge_same.
  set (a3 := foldl _ a1 _).
  assert (no_safe_cell_in_sentences a3) as H3.
  { apply (foldl_keeps no_safe_cell_in_sentences mark_exact_match); [|done].
    intros c a. apply no_safe_mark_exact_match. }
  clearbody a3. unfold mark_completed_neighbors.
  destruct (decide (0 < count)); [|done].
  destruct (decide (0 < len _)); [|done].
  apply (foldl_keeps no_safe_cell_in_sentences mark_safe); [|done].
  intros c a. apply no_safe_mark_safe.
Qed.

Lemma no_safe_add_all clues ai :
  no_safe_cell_in_sentences ai →
  ∃ ai', add_all clues ai = Ok ai' ∧ no_safe_cell_in_sentences ai'.
Proof.
  revert ai. induction clues as [|[cell count] clues IH]; intros ai Hai.
  - by exists ai.
  - rewrite add_all_cons.
    destruct (no_safe_add_knowledge cell count ai Hai) as (a1 & -> & H1).
    simpl. by apply IH.
Qed.

(** X12.  Whatever clues a fresh engine is given, true or not, every call
    returns and no sentence of [knowledge] ever mentions a cell of [safes];
    so the cleanup of lines 234-238, run on such an engine, finds nothing to
    remove. *)
Theorem sentences_never_mention_safe_cells (h w : Z) (clues : list (Cell * Z)) :
  ∃ ai, add_all clues (init h w) = Ok ai
        ∧ no_safe_cell_in_sentences ai
        ∧ remove_known_safes ai = Ok ai.
Proof.
  destruct (no_safe_add_all clues (init h w)) as (ai & Hrun & Hai).
  { by apply Forall_nil. }
  exists ai. split; [done|]. split; [done|].
  by apply remove_known_safes_nothing_to_drop.
Qed.

(** X13.  With clues that are consistent with a mine placement [M], what
    the engine deduces is true of [M]: no cell of [safes] is a mine, every
    cell of [mines] is one, and a cell proposed by [make_safe_move] is never
    a mine. *)
Theorem consistent_clues_give_true_deductions
  (h w : Z) (M : gset Cell) (clues : list (Cell * Z)) :
  Forall (consistent h w M) clues →
  ∃ ai r, add_all clues (init h w) = Ok ai
          ∧ safes ai ## M ∧ mines ai ⊆ M
          ∧ make_safe_move ai = Ok (r, ai)
          ∧ ∀ c, r = Some c → c ∉ M.
Proof.
  intros Hclues.
  destruct (sound_add_all M h w clues (init h w)) as (ai & Hrun & [Hs Hm _]);
    [apply sound_init|done|done|].
  destruct (make_safe_move_returns ai) as (r & Hmove & Hr).
  exists ai, r. split; [done|]. split; [done|]. split; [done|]. split; [done|].
  intros c ->. destruct Hr as [Hin _]. intros HM. by apply (Hs c).
Qed.

(** The three clues of the 1 by 6 board. *)
Lemma consistent_clues_give_true_deductions_witness :
  Forall (consistent 1 6 line_mines) line_clues
  ∧ ∃ ai r, add_all line_clues (init 1 6) = Ok ai
            ∧ make_safe_move ai = Ok (r, ai)
            ∧ ∀ c, r = Some c → c ∉ line_mines.
Proof.
  assert (Forall (consistent 1 6 line_mines) line_clues) as Hclues.
  { repeat constructor; by vm_compute. }
  split; [exact Hclues|].
  destruct (consistent_clues_give_true_deductions 1 6 line_mines line_clues Hclues)
    as (ai & r & Hrun & _ & _ & Hmove & Hr).
  exists ai, r. split; [exact Hrun|]. split; [exact Hmove|exact Hr].
Defined.

(** X14.  With clues that are consistent with a mine placement [M], every
    sentence of [knowledge] states the number of mines of [M] among its
    cells, and so keeps [0 <= count <= |cells|]. *)
Theorem consistent_clues_keep_sentences_true
  (h w : Z) (M : gset Cell) (clues : list (Cell * Z)) :
  Forall (consistent h w M) clues →
  ∃ ai, add_all clues (init h w) = Ok ai
        ∧ Forall (λ s, Sentence.count s = len (Sentence.cells s ∩ M)
                       ∧ Sentence.wf s) (knowledge ai).
Proof.
  intros Hclues.
  destruct (sound_add_all M h w clues (init h w)) as (ai & Hrun & [_ _ Hk]);
    [apply sound_init|done|done|].
  exists ai. split; [done|]. eapply Forall_impl; [exact Hk|].
  intros s Hs. unfold true_sentence in Hs. split; [done|].
  unfold Sentence.wf. rewrite Hs. split; [apply len_nonneg|].
  unfold len. apply inj_le, subseteq_size. intros x.
  rewrite elem_of_intersection. tauto.
Qed.

(** The three clues of the 1 by 6 board. *)
Lemma consistent_clues_keep_sentences_true_witness :
  Forall (consistent 1 6 line_mines) line_clues
  ∧ ∃ ai, add_all line_clues (init 1 6) = Ok ai
          ∧ Forall Sentence.wf (knowledge ai).
Proof.
  assert (Forall (consistent 1 6 line_mines) line_clues) as Hclues.
  { repeat constructor; by vm_compute. }
  split; [exact Hclues|].
  destruct (consistent_clues_keep_sentences_true 1 6 line_mines line_clues Hclues)
    as (ai & Hrun & Hk).
  exists ai. split; [exact Hrun|].
  eapply Forall_impl; [exact Hk|]. intros s [_ Hwf]. exact Hwf.
Defined.








(** ** The game *)

Lemma py_index_inside {A : Type} (l : list A) (i : Z) (x : A) :
  0 ≤ i → l !! Z.to_nat i = Some x → Minesweeper.py_index l i = Minesweeper.Returns x.
Proof.
  intros Hi Hx. unfold Minesweeper.py_index.
  rewrite (decide_False (P := i < 0)) by lia.
  apply lookup_lt_Some in Hx as Hlt.
  rewrite decide_True by lia. by rewrite Hx.
Qed.

Lemma py_index_wraps {A : Type} (l : list A) (i : Z) :
  i < 0 → 0 ≤ i + Z.of_nat (length l) →
  Minesweeper.py_index l i = Minesweeper.py_index l (i + Z.of_nat (length l)).
Proof.
  intros Hneg Hin. unfold Minesweeper.py_index.
  rewrite (decide_True (P := i < 0)) by lia.
  by rewrite (decide_False (P := i + Z.of_nat (length l) < 0)) by lia.
Qed.

Lemma py_index_outside {A : Type} (l : list A) (i : Z) :
  i < - Z.of_nat (length l) ∨ Z.of_nat (length l) ≤ i →
  Minesweeper.py_index l i = Minesweeper.IndexError.
Proof.
  intros Hout. unfold Minesweeper.py_index.
  destruct (decide (i < 0)); by rewrite decide_False by lia.
Qed.

Lemma py_store_inside {A : Type} (l : list A) (i : Z) (x : A) :
  0 ≤ i < Z.of_nat (length l) →
  Minesweeper.py_store l i x = Minesweeper.Returns (<[Z.to_nat i := x]> l).
Proof.
  intros Hi. unfold Minesweeper.py_store.
  rewrite (decide_False (P := i < 0)) by lia. by rewrite decide_True by lia.
Qed.

Lemma py_index_mod {A : Type} (l : list A) (i : Z) (x : A) :
  - Z.of_nat (length l) ≤ i < Z.of_nat (length l) →
  l !! Z.to_nat (i `mod` Z.of_nat (length l)) = Some x →
  Minesweeper.py_index l i = Minesweeper.Returns x.
Proof.
  intros Hi Hx. destruct (decide (i < 0)) as [Hneg|Hpos].
  - rewrite py_index_wraps by lia. apply py_index_inside; [lia|].
    rewrite <- Hx. do 2 f_equal.
    apply Z.mod_unique_pos with (q := -1); lia.
  - apply py_index_inside; [lia|]. rewrite <- Hx. do 2 f_equal.
    symmetry. apply Z.mod_small. lia.
Qed.

(** On a well-shaped field every cell of the board has its row and its
    entry, and the entry tells whether the cell is mined. *)
Lemma field_ok_lookup g (i j : Z) :
  field_ok g →
  0 ≤ i < Minesweeper.height g → 0 ≤ j < Minesweeper.width g →
  ∃ row, Minesweeper.board g !! Z.to_nat i = Some row
         ∧ length row = Z.to_nat (Minesweeper.width g)
         ∧ row !! Z.to_nat j = Some (bool_decide ((i, j) ∈ Minesweeper.mines g)).
Proof.
  intros [Hrows Hcols Hmines _] Hi Hj.
  destruct (lookup_lt_is_Some_2 (Minesweeper.board g) (Z.to_nat i)) as [row Hrow];
    [lia|].
  assert (length row = Z.to_nat (Minesweeper.width g)) as Hlen.
  { rewrite Forall_forall in Hcols. apply Hcols.
    by apply list_elem_of_lookup_2 in Hrow. }
  destruct (lookup_lt_is_Some_2 row (Z.to_nat j)) as [v Hv]; [lia|].
  exists row. split; [done|]. split; [done|]. rewrite Hv. f_equal.
  specialize (Hmines (Z.to_nat i) (Z.to_nat j)). unfold field_at in Hmines.
  rewrite Hrow in Hmines. simpl in Hmines. rewrite Hv in Hmines.
  rewrite !Z2Nat.id in Hmines by lia.
  destruct v.
  - symmetry. apply bool_decide_eq_true. by apply Hmines.
  - symmetry. apply bool_decide_eq_false. intros Hin.
    apply Hmines in Hin. discriminate.
Qed.

(** X15.  On a game as [__init__] builds it, [is_mine((i, j))] answers for
    the cell [(i mod height, j mod width)] whenever
    [-height <= i < height] and [-width <= j < width]: a negative coordinate
    counts from the far edge of the board.  Outside these ranges the call
    raises [IndexError]. *)
Theorem is_mine_reads_the_field_with_wrap_around (g : Minesweeper.t) (cell : Cell) :
  field_ok g →
  ((- Minesweeper.height g ≤ cell.1 < Minesweeper.height g)
   ∧ (- Minesweeper.width g ≤ cell.2 < Minesweeper.width g) →
   Minesweeper.is_mine g cell
   = Minesweeper.Returns
       (bool_decide ((cell.1 `mod` Minesweeper.height g,
                      cell.2 `mod` Minesweeper.width g) ∈ Minesweeper.mines g)))
  ∧ (¬ ((- Minesweeper.height g ≤ cell.1 < Minesweeper.height g)
        ∧ (- Minesweeper.width g ≤ cell.2 < Minesweeper.width g)) →
     Minesweeper.is_mine g cell = Minesweeper.IndexError).
Proof.
  intros Hok. destruct cell as [i j]. simpl.
  pose proof (field_rows g Hok) as Hrows.
  assert (∀ row, row ∈ Minesweeper.board g →
                 length row = Z.to_nat (Minesweeper.width g)) as Hcols.
  { apply Forall_forall, (field_cols g Hok). }
  unfold Minesweeper.is_mine. simpl. split.
  - intros [Hi Hj].
    set (i' := i `mod` Minesweeper.height g).
    set (j' := j `mod` Minesweeper.width g).
    assert (0 ≤ i' < Minesweeper.height g) as Hi' by (apply Z.mod_pos_bound; lia).
    assert (0 ≤ j' < Minesweeper.width g) as Hj' by (apply Z.mod_pos_bound; lia).
    destruct (field_ok_lookup g i' j' Hok Hi' Hj') as (row & Hrow & Hlen & Hv).
    rewrite (py_index_mod _ i row); [simpl|lia|].
    + apply py_index_mod; [lia|].
      by rewrite Hlen, Z2Nat.id by lia.
    + by rewrite Hrows, Z2Nat.id by lia.
  - intros Hout.
    destruct (decide (- Minesweeper.height g ≤ i < Minesweeper.height g))
      as [Hi|Hi].
    + set (i' := i `mod` Minesweeper.height g).
      assert (0 ≤ i' < Minesweeper.height g) as Hi'
        by (apply Z.mod_pos_bound; lia).
      destruct (lookup_lt_is_Some_2 (Minesweeper.board g) (Z.to_nat i'))
        as [row Hrow]; [lia|].
      assert (length row = Z.to_nat (Minesweeper.width g)) as Hlen.
      { apply Hcols. by apply list_elem_of_lookup_2 in Hrow. }
      rewrite (py_index_mod _ i row); [simpl|lia|].
      * apply py_index_outside. lia.
      * by rewrite Hrows, Z2Nat.id by lia.
    + by rewrite py_index_outside by lia.
Qed.

Lemma elem_of_grid rows cols (c : Cell) :
  c ∈ grid rows cols ↔ c.1 ∈ rows ∧ c.2 ∈ cols.
Proof.
  unfold grid. rewrite list_elem_of_In, in_concat. split.
  - intros (row & Hrow & Hc). apply in_map_iff in Hrow as (i & <- & Hi).
    apply in_map_iff in Hc as (j & <- & Hj).
    by rewrite !list_elem_of_In.
  - intros [Hi Hj]. destruct c as [i j]. simpl in *.
    exists (map (λ j0, (i, j0)) cols). split.
    + apply in_map_iff. exists i. by rewrite <- list_elem_of_In.
    + apply in_map_iff. exists j. by rewrite <- list_elem_of_In.
Qed.

Lemma NoDup_grid rows cols : NoDup rows → NoDup cols → NoDup (grid rows cols).
Proof.
  intros Hrows Hcols. unfold grid.
  induction Hrows as [|i rows Hi Hrows IH]; simpl; [constructor|].
  apply NoDup_app. split; [|split; [|exact IH]].
  - apply NoDup_fmap_2_strong; [|done]. by intros j1 j2 _ _ [= ->].
  - intros c Hc Hc'. apply list_elem_of_fmap in Hc as (j & -> & _).
    apply (elem_of_grid rows cols) in Hc' as [Hi' _]. by apply Hi.
Qed.

Lemma for_run_app {A S : Type} (body : A → S → Minesweeper.run S) l1 l2 st :
  Minesweeper.for_run body (l1 ++ l2) st
  = Minesweeper.for_run body l1 st ≫= Minesweeper.for_run body l2.
Proof.
  revert st. induction l1 as [|x l1 IH]; intros st; simpl; [done|].
  destruct (body x st); simpl; first [apply IH|done].
Qed.

(** One round of the inner loop of [nearby_mines]. *)
Lemma nearby_mines_round g cell (i j n : Z) :
  field_ok g →
  (if decide ((i, j) = cell) then Minesweeper.Returns n
   else if decide ((0 ≤ i < Minesweeper.height g)
                   ∧ (0 ≤ j < Minesweeper.width g)) then
     row ← Minesweeper.py_index (A := list bool) (Minesweeper.board g) i;
     mined ← Minesweeper.py_index (A := bool) row j;
     if (mined : bool) then Minesweeper.Returns (n + 1)
     else Minesweeper.Returns n
   else Minesweeper.Returns n)
  = Minesweeper.Returns
      (n + Z.of_nat (length (filter (counted g cell) [(i, j)]))).
Proof.
  intros Hok. unfold counted.
  destruct (decide ((i, j) = cell)) as [Heq|Hne].
  - rewrite filter_cons_False by tauto. simpl. f_equal. lia.
  - destruct (decide ((0 ≤ i < Minesweeper.height g)
                      ∧ (0 ≤ j < Minesweeper.width g))) as [[Hi Hj]|Hout].
    + destruct (field_ok_lookup g i j Hok Hi Hj) as (row & Hrow & Hlen & Hv).
      rewrite (py_index_inside _ i row) by (done || lia). simpl.
      rewrite (py_index_inside _ j _ ltac:(lia) Hv). simpl.
      destruct (decide ((i, j) ∈ Minesweeper.mines g)) as [Hin|Hnin].
      * rewrite bool_decide_eq_true_2 by done.
        rewrite filter_cons_True by (simpl; tauto). simpl. f_equal.
      * rewrite bool_decide_eq_false_2 by done.
        rewrite filter_cons_False by tauto. simpl. f_equal. lia.
    + rewrite filter_cons_False by (simpl; tauto). simpl. f_equal. lia.
Qed.

Lemma nearby_mines_row g cell (i : Z) cols (n : Z) :
  field_ok g →
  Minesweeper.for_run
    (λ j count,
       if decide ((i, j) = cell) then Minesweeper.Returns count
       else if decide ((0 ≤ i < Minesweeper.height g)
                       ∧ (0 ≤ j < Minesweeper.width g)) then
         row ← Minesweeper.py_index (A := list bool) (Minesweeper.board g) i;
         mined ← Minesweeper.py_index (A := bool) row j;
         if (mined : bool) then Minesweeper.Returns (count + 1)
         else Minesweeper.Returns count
       else Minesweeper.Returns count)
    cols n
  = Minesweeper.Returns
      (n + Z.of_nat (length (filter (counted g cell) (map (λ j, (i, j)) cols)))).
Proof.
  intros Hok. revert n. induction cols as [|j cols IH]; intros n; simpl.
  - f_equal. lia.
  - rewrite (nearby_mines_round g cell i j n Hok). simpl. rewrite IH.
    f_equal. rewrite (filter_cons (counted g cell) (i, j)).
    destruct (decide (counted g cell (i, j))) as [Hc|Hc].
    + rewrite filter_cons_True by done. simpl. lia.
    + rewrite filter_cons_False by done. simpl. lia.
Qed.

Lemma nearby_mines_rows g cell rows cols (n : Z) :
  field_ok g →
  Minesweeper.for_run
    (λ i count,
       Minesweeper.for_run
         (λ j count,
            if decide ((i, j) = cell) then Minesweeper.Returns count
            else if decide ((0 ≤ i < Minesweeper.height g)
                            ∧ (0 ≤ j < Minesweeper.width g)) then
              row ← Minesweeper.py_index (A := list bool) (Minesweeper.board g) i;
              mined ← Minesweeper.py_index (A := bool) row j;
              if (mined : bool) then Minesweeper.Returns (count + 1)
              else Minesweeper.Returns count
            else Minesweeper.Returns count)
         cols count)
    rows n
  = Minesweeper.Returns
      (n + Z.of_nat (length (filter (counted g cell) (grid rows cols)))).
Proof.
  intros Hok. revert n. induction rows as [|i rows IH]; intros n; simpl.
  - f_equal. unfold grid. simpl. lia.
  - rewrite (nearby_mines_row g cell i cols n Hok). simpl. rewrite IH.
    f_equal. unfold grid. simpl. rewrite filter_app, length_app. lia.
Qed.

Lemma elem_of_range a b x : x ∈ Minesweeper.range a b ↔ a ≤ x < b.
Proof. unfold Minesweeper.range. rewrite elem_of_seqZ. lia. Qed.

(** The cells [nearby_mines] counts are the mined neighbours. *)
Lemma counted_cells_are_mined_neighbours g cell :
  get_neighboring_cells cell (init (Minesweeper.height g) (Minesweeper.width g))
    ∩ Minesweeper.mines g
  = list_to_set
      (filter (counted g cell)
         (grid (Minesweeper.range (cell.1 - 1) (cell.1 + 2))
               (Minesweeper.range (cell.2 - 1) (cell.2 + 2)))).
Proof.
  apply set_eq. intros c.
  rewrite elem_of_intersection, elem_of_get_neighboring_cells,
    elem_of_list_to_set, list_elem_of_filter, elem_of_grid, !elem_of_range.
  unfold counted. simpl. split.
  - intros [(Hi & Hj & Hr & Hk & Hne) HM]. repeat split; try done; lia.
  - intros [(Hne & [Hi Hj] & HM) [Hr Hk]]. repeat split; try done; lia.
Qed.

Lemma nearby_mines_counts g cell :
  field_ok g →
  Minesweeper.nearby_mines g cell
  = Minesweeper.Returns
      (len (get_neighboring_cells cell
              (init (Minesweeper.height g) (Minesweeper.width g))
            ∩ Minesweeper.mines g)).
Proof.
  intros Hok. unfold Minesweeper.nearby_mines.
  rewrite (nearby_mines_rows g cell _ _ 0 Hok). f_equal.
  rewrite counted_cells_are_mined_neighbours. unfold len.
  rewrite size_list_to_set; [lia|].
  apply NoDup_filter, NoDup_grid; apply NoDup_seqZ.
Qed.

Lemma lookup_map {A B : Type} (f : A → B) (l : list A) (i : nat) :
  map f l !! i = f <$> (l !! i).
Proof. exact (list_lookup_fmap f l i). Qed.

Lemma field_ok_empty_field h w : field_ok (Minesweeper.empty_field h w).
Proof.
  split; simpl.
  - rewrite length_map. unfold Minesweeper.range. rewrite length_seqZ. f_equal. lia.
  - apply Forall_forall. intros row Hrow.
    apply list_elem_of_In, in_map_iff in Hrow as (i & <- & _).
    rewrite length_map. unfold Minesweeper.range. rewrite length_seqZ.
    f_equal. lia.
  - intros i j. unfold field_at. simpl. rewrite lookup_map. split.
    + intros Hat. exfalso.
      destruct (Minesweeper.range 0 h !! i) as [i'|]; [|done]. simpl in Hat.
      rewrite lookup_map in Hat.
      by destruct (Minesweeper.range 0 w !! j).
    + intros Hin. by apply not_elem_of_empty in Hin.
  - intros c Hin. by apply not_elem_of_empty in Hin.
Qed.

(** One draw on the board: the round returns, and the drawn cell is mined
    afterwards. *)
Lemma place_mine_on_board g (draw : Cell) :
  field_ok g →
  draw ∈ board_cells (Minesweeper.height g) (Minesweeper.width g) →
  ∃ g', Minesweeper.place_mine draw g = Minesweeper.Returns g'
        ∧ field_ok g'
        ∧ Minesweeper.mines g' = Minesweeper.mines g ∪ {[draw]}
        ∧ Minesweeper.height g' = Minesweeper.height g
        ∧ Minesweeper.width g' = Minesweeper.width g
        ∧ Minesweeper.mines_found g' = Minesweeper.mines_found g.
Proof.
  intros Hok Hdraw. destruct draw as [i j].
  apply elem_of_board_cells in Hdraw as [Hi Hj]. simpl in Hi, Hj.
  destruct (field_ok_lookup g i j Hok Hi Hj) as (row & Hrow & Hlen & Hv).
  unfold Minesweeper.place_mine, Minesweeper.randrange. simpl.
  rewrite (decide_False (P := Minesweeper.height g ≤ 0)) by lia. simpl.
  rewrite (decide_False (P := Minesweeper.width g ≤ 0)) by lia. simpl.
  rewrite (py_index_inside _ i row) by (done || lia). simpl.
  rewrite (py_index_inside _ j _ ltac:(lia) Hv). simpl.
  destruct (decide ((i, j) ∈ Minesweeper.mines g)) as [Hin|Hnin].
  - rewrite bool_decide_eq_true_2 by done. exists g.
    split; [done|]. split; [done|]. split; [|done].
    apply set_eq. intros c. rewrite elem_of_union, elem_of_singleton.
    intuition congruence.
  - rewrite bool_decide_eq_false_2 by done.
    pose proof (field_rows g Hok) as Hrows.
    rewrite py_store_inside by lia. simpl.
    rewrite py_store_inside by lia. simpl.
    eexists. split; [reflexivity|]. split; [|done].
    split; simpl.
    + by rewrite length_insert.
    + apply Forall_insert; [apply (field_cols g Hok)|].
      by rewrite length_insert.
    + intros a b. unfold field_at. simpl.
      rewrite elem_of_union, elem_of_singleton.
      destruct (decide (a = Z.to_nat i)) as [->|Ha].
      * rewrite list_lookup_insert_eq by lia. simpl.
        destruct (decide (b = Z.to_nat j)) as [->|Hb].
        -- rewrite list_lookup_insert_eq by lia.
           rewrite !Z2Nat.id by lia. tauto.
        -- rewrite list_lookup_insert_ne by done.
           pose proof (field_mines g Hok (Z.to_nat i) b) as Hold.
           unfold field_at in Hold. rewrite Hrow in Hold. simpl in Hold.
           rewrite Hold. split; [tauto|]. intros [Hin|Heq]; [done|].
           injection Heq as Ha Hb'. lia.
      * rewrite list_lookup_insert_ne by done.
        pose proof (field_mines g Hok a b) as Hold.
        unfold field_at in Hold. rewrite Hold. split; [tauto|].
        intros [Hin|Heq]; [done|]. injection Heq as Ha' Hb'. lia.
    + intros c. rewrite elem_of_union, elem_of_singleton.
      intros [Hin| ->]; [by apply (field_on_board g Hok)|].
      apply elem_of_board_cells. simpl. lia.
Qed.

Lemma len_union_singleton_le (X : gset Cell) (c : Cell) :
  len X ≤ len (X ∪ {[c]}) ≤ len X + 1.
Proof.
  unfold len. split.
  - apply inj_le, subseteq_size, union_subseteq_l.
  - rewrite size_union_alt.
    assert (size ({[c]} ∖ X : gset Cell) ≤ size ({[c]} : gset Cell))%nat as Hle.
    { apply subseteq_size. intros x. rewrite elem_of_difference. tauto. }
    rewrite size_singleton in Hle. lia.
Qed.

(** The loop of [__init__] on draws that are on the board: it never raises
    [IndexError]; when it returns, the game is well shaped with the number
    of mines asked for, all of them among the draws; it raises [ValueError]
    only on a board without cells; and it is still drawing at the end of the
    draws only on a board with cells. *)
Lemma add_mines_on_board n draws g :
  field_ok g →
  Forall (λ d, d ∈ board_cells (Minesweeper.height g) (Minesweeper.width g))
         draws →
  match Minesweeper.add_mines n draws g with
  | Minesweeper.Returns g' =>
      field_ok g' ∧ len (Minesweeper.mines g') = n
      ∧ Minesweeper.mines g ⊆ Minesweeper.mines g'
      ∧ Minesweeper.mines g' ⊆ Minesweeper.mines g ∪ list_to_set draws
      ∧ Minesweeper.height g' = Minesweeper.height g
      ∧ Minesweeper.width g' = Minesweeper.width g
      ∧ Minesweeper.mines_found g' = Minesweeper.mines_found g
      ∧ ∃ k, Minesweeper.mines g'
             = Minesweeper.mines g ∪ list_to_set (take k draws)
  | Minesweeper.Starved =>
      0 < Minesweeper.height g ∧ 0 < Minesweeper.width g
      ∧ ∀ k, len (Minesweeper.mines g ∪ list_to_set (take k draws)) ≠ n
  | Minesweeper.ValueError =>
      (Minesweeper.height g ≤ 0 ∨ Minesweeper.width g ≤ 0)
      ∧ len (Minesweeper.mines g) ≠ n
  | Minesweeper.IndexError => False
  end.
Proof.
  intros Hok Hdraws. revert g Hok Hdraws.
  induction draws as [|d draws IH]; intros g Hok Hdraws; simpl.
  - destruct (decide (len (Minesweeper.mines g) ≠ n)) as [Hne|Heq].
    + unfold Minesweeper.randrange.
      destruct (decide (Minesweeper.height g ≤ 0)) as [Hh|Hh]; simpl;
        [split; [by left|done]|].
      destruct (decide (Minesweeper.width g ≤ 0)) as [Hw|Hw]; simpl;
        [split; [by right|done]|].
      split; [lia|]. split; [lia|].
      intros k. rewrite take_nil. simpl. by rewrite union_empty_r_L.
    + split; [done|]. split; [by destruct (decide (len (Minesweeper.mines g) = n))|].
      split; [done|]. split; [apply union_subseteq_l|].
      split; [done|]. split; [done|]. split; [done|].
      exists 0%nat. rewrite take_0. simpl. by rewrite union_empty_r_L.
  - destruct (decide (len (Minesweeper.mines g) ≠ n)) as [Hne|Heq].
    + apply Forall_cons in Hdraws as [Hd Hdraws].
      destruct (place_mine_on_board g d Hok Hd)
        as (g1 & -> & Hok1 & Hm1 & Hh1 & Hw1 & Hf1).
      simpl. specialize (IH g1 Hok1). rewrite Hh1, Hw1 in IH.
      specialize (IH Hdraws).
      destruct (Minesweeper.add_mines n draws g1) as [g'| | |]; [|done| |].
      * destruct IH as (Hok' & Hn & Hsub & Hsup & Hh & Hw & Hf & k & Hk).
        split; [done|]. split; [done|]. rewrite Hm1 in Hsub, Hsup, Hk.
        split; [|split; [|split; [congruence|split; [congruence|split;
                                                      [congruence|]]]]].
        -- intros c Hc. apply Hsub, elem_of_union_l, Hc.
        -- intros c Hc. apply Hsup in Hc.
           revert Hc. rewrite !elem_of_union, elem_of_singleton. tauto.
        -- exists (S k). simpl. by rewrite union_assoc_L.
      * destruct IH as [Hempty _]. split; [exact Hempty|exact Hne].
      * destruct IH as (Hh & Hw & IH). split; [done|]. split; [done|].
        intros [|k]; simpl.
        -- by rewrite union_empty_r_L.
        -- specialize (IH k). rewrite Hm1 in IH.
           by rewrite union_assoc_L.
    + split; [done|]. split; [by destruct (decide (len (Minesweeper.mines g) = n))|].
      split; [done|]. split; [apply union_subseteq_l|].
      split; [done|]. split; [done|]. split; [done|].
      exists 0%nat. rewrite take_0. simpl. by rewrite union_empty_r_L.
Qed.

Lemma length_grid rows cols :
  length (grid rows cols) = (length rows * length cols)%nat.
Proof.
  unfold grid. induction rows as [|i rows IH]; simpl; [done|].
  by rewrite length_app, length_map, IH.
Qed.

Lemma len_on_board_le (h w : Z) (X : gset Cell) :
  (∀ c, c ∈ X → c ∈ board_cells h w) → len X ≤ Z.max 0 h * Z.max 0 w.
Proof.
  intros Hsub. unfold len.
  assert (X ⊆ list_to_set (board_cells h w)) as Hsub'.
  { intros c Hc. apply elem_of_list_to_set. by apply Hsub. }
  apply subseteq_size in Hsub'.
  pose proof (size_list_to_set_le (board_cells h w)) as Hle.
  change (board_cells h w) with (grid (seqZ 0 h) (seqZ 0 w)) in Hle at 2.
  rewrite length_grid, !length_seqZ in Hle. nia.
Qed.

Lemma small_game_ok : field_ok small_game.
Proof.
  pose proof (add_mines_on_board 1 [(0, 1)] (Minesweeper.empty_field 1 2)
                (field_ok_empty_field 1 2)) as Hrun.
  assert (Minesweeper.add_mines 1 [(0, 1)] (Minesweeper.empty_field 1 2)
          = Minesweeper.Returns small_game) as Heq by (by vm_compute).
  rewrite Heq in Hrun. apply Hrun.
  apply Forall_singleton, elem_of_board_cells. simpl. lia.
Qed.

(** X16.  [Minesweeper(height, width, mines)], with the numbers drawn by
    [random.randrange] given as a list of board cells, never raises
    [IndexError].  When it returns, the board has [height] rows of [width]
    entries, an entry is [True] exactly at the cells of [mines], there are
    exactly as many mines as asked for, they are the cells of an initial
    part of the list, no mine is found yet, and [won()] holds exactly when no
    mine was asked for; it returns only when no mine is asked for or the
    board has cells.  It raises [ValueError] only on a board without cells
    with a number of mines other than 0.  It is still drawing when the list
    ends only on a board with cells, and only when no initial part of the
    list holds that many different cells. *)
Theorem init_builds_the_game_from_the_draws
  (h w n : Z) (draws : list Cell) :
  Forall (λ d, d ∈ board_cells h w) draws →
  match Minesweeper.init h w n draws with
  | Minesweeper.Returns g =>
      field_ok g
      ∧ Minesweeper.height g = h ∧ Minesweeper.width g = w
      ∧ len (Minesweeper.mines g) = n
      ∧ (∃ k, Minesweeper.mines g = list_to_set (take k draws))
      ∧ Minesweeper.mines_found g = ∅
      ∧ Minesweeper.won g = bool_decide (n = 0)
      ∧ (n = 0 ∨ (0 < h ∧ 0 < w))
  | Minesweeper.Starved =>
      0 < h ∧ 0 < w ∧ ∀ k, len (list_to_set (take k draws)) ≠ n
  | Minesweeper.ValueError => (h ≤ 0 ∨ w ≤ 0) ∧ n ≠ 0
  | Minesweeper.IndexError => False
  end.
Proof.
  intros Hdraws. unfold Minesweeper.init.
  pose proof (add_mines_on_board n draws (Minesweeper.empty_field h w)
                (field_ok_empty_field h w) Hdraws) as Hrun.
  destruct (Minesweeper.add_mines n draws (Minesweeper.empty_field h w))
    as [g| | |]; [|done| |].
  - destruct Hrun as (Hok & Hn & _ & _ & Hh & Hw & Hf & k & Hk). simpl in *.
    rewrite union_empty_l_L in Hk.
    split; [done|]. split; [done|]. split; [done|]. split; [done|].
    split; [by exists k|]. split; [done|]. split.
    + unfold Minesweeper.won. rewrite Hf.
      destruct (decide (n = 0)) as [H0|H0].
      * rewrite (bool_decide_eq_true_2 (n = 0)) by done.
        apply bool_decide_eq_true_2. symmetry.
        destruct (decide (Minesweeper.mines g = ∅)) as [|Hne]; [done|].
        apply len_pos_iff in Hne. lia.
      * rewrite (bool_decide_eq_false_2 (n = 0)) by done.
        apply bool_decide_eq_false_2. intros Hempty.
        rewrite <- Hempty in Hn. by rewrite len_empty in Hn.
    + destruct (decide (n = 0)) as [H0|H0]; [by left|right].
      destruct (decide (Minesweeper.mines g = ∅)) as [Hempty|Hne].
      { rewrite Hempty, len_empty in Hn. congruence. }
      apply set_choose_L in Hne as [c Hc].
      apply (field_on_board g Hok), elem_of_board_cells in Hc. lia.
  - destruct Hrun as [Hempty Hn]. simpl in *. split; [done|].
    intros ->. by rewrite len_empty in Hn.
  - destruct Hrun as (Hh & Hw & Hrun). simpl in *.
    split; [done|]. split; [done|].
    intros k. specialize (Hrun k). by rewrite union_empty_l_L in Hrun.
Qed.

(** One mine on a 1 by 2 board, found with the first draw. *)
Lemma init_builds_the_game_from_the_draws_witness :
  Forall (λ d, d ∈ board_cells 1 2) [(0, 1)]
  ∧ Minesweeper.init 1 2 1 [(0, 1)] = Minesweeper.Returns small_game
  ∧ field_ok small_game.
Proof.
  assert (Forall (λ d, d ∈ board_cells 1 2) [(0, 1)]) as Hdraws.
  { apply Forall_singleton, elem_of_board_cells. simpl. lia. }
  split; [exact Hdraws|].
  assert (Minesweeper.init 1 2 1 [(0, 1)] = Minesweeper.Returns small_game)
    as Heq by (by vm_compute).
  split; [exact Heq|].
  pose proof (init_builds_the_game_from_the_draws 1 2 1 [(0, 1)] Hdraws) as Hrun.
  rewrite Heq in Hrun. exact (proj1 Hrun).
Defined.

(** X17.  Two ways in which [Minesweeper(height, width, mines)] fails to
    give a game.  On a board without cells, any number of mines other than 0
    makes it raise [ValueError], whatever numbers are drawn and however
    many.  On a board with cells, a negative number of mines, or more mines
    than the board has cells, makes the loop that places the mines run for
    ever: whatever board cells are drawn, and however many, it is still
    drawing. *)
Theorem init_fails_on_impossible_requests (h w n : Z) (draws : list Cell) :
  ((h ≤ 0 ∨ w ≤ 0) → n ≠ 0 →
   Minesweeper.init h w n draws = Minesweeper.ValueError)
  ∧ (0 < h → 0 < w → n < 0 ∨ h * w < n →
     Forall (λ d, d ∈ board_cells h w) draws →
     Minesweeper.init h w n draws = Minesweeper.Starved).
Proof.
  split.
  - intros Hempty Hn. unfold Minesweeper.init.
    destruct draws as [|d draws]; simpl;
      rewrite decide_True by (rewrite len_empty; congruence);
      unfold Minesweeper.place_mine, Minesweeper.randrange; simpl;
      (destruct (decide (h ≤ 0)); [done|]); simpl;
      by rewrite decide_True by lia.
  - intros Hh Hw Hn Hdraws. unfold Minesweeper.init.
    pose proof (add_mines_on_board n draws (Minesweeper.empty_field h w)
                  (field_ok_empty_field h w) Hdraws) as Hrun.
    destruct (Minesweeper.add_mines n draws (Minesweeper.empty_field h w))
      as [g| | |]; [|done| |done].
    + exfalso. destruct Hrun as (Hok & Hlen & _ & _ & Hh' & Hw' & _ & _).
      pose proof (len_nonneg (Minesweeper.mines g)).
      pose proof (len_on_board_le _ _ _ (field_on_board g Hok)) as Hle.
      rewrite Hh', Hw' in Hle. simpl in Hle. lia.
    + exfalso. destruct Hrun as [Hempty _]. simpl in Hempty. lia.
Qed.

(** Three mines asked for on a 1 by 2 board; one mine on a board without
    rows. *)
Lemma init_fails_on_impossible_requests_witness :
  Minesweeper.init 1 2 3 [(0, 0); (0, 1); (0, 0)] = Minesweeper.Starved
  ∧ Minesweeper.init 0 3 1 [] = Minesweeper.ValueError.
Proof.
  split.
  - apply (proj2 (init_fails_on_impossible_requests 1 2 3
                    [(0, 0); (0, 1); (0, 0)])); [lia|lia|right; lia|].
    repeat (apply Forall_cons; split; [apply elem_of_board_cells; simpl; lia|]).
    apply Forall_nil_2.
  - apply (proj1 (init_fails_on_impossible_requests 0 3 1 [])); [left; lia|lia].
Defined.

(** X18.  On a game as [__init__] builds it, [nearby_mines(cell)] never
    raises and returns the number of mines among the cells that the engine's
    [get_neighboring_cells(cell)] gives for a board of the same size; so it
    is a number from 0 to 8.  The cell need not be on the board. *)
Theorem nearby_mines_counts_the_mined_neighbours (g : Minesweeper.t) (cell : Cell) :
  field_ok g →
  ∃ n, Minesweeper.nearby_mines g cell = Minesweeper.Returns n
       ∧ n = len (get_neighboring_cells cell
                    (init (Minesweeper.height g) (Minesweeper.width g))
                  ∩ Minesweeper.mines g)
       ∧ 0 ≤ n ≤ 8.
Proof.
  intros Hok. eexists. split; [by apply nearby_mines_counts|].
  split; [done|]. split; [apply len_nonneg|].
  set (ai := init (Minesweeper.height g) (Minesweeper.width g)).
  assert (len (get_neighboring_cells cell ai ∩ Minesweeper.mines g)
          ≤ len (get_neighboring_cells cell ai)) as Hle.
  { unfold len. apply inj_le, subseteq_size. intros x.
    rewrite elem_of_intersection. tauto. }
  set (l := [ (cell.1 - 1, cell.2); (cell.1 + 1, cell.2); (cell.1, cell.2 - 1);
              (cell.1 - 1, cell.2 - 1); (cell.1 + 1, cell.2 - 1);
              (cell.1, cell.2 + 1); (cell.1 - 1, cell.2 + 1);
              (cell.1 + 1, cell.2 + 1) ]).
  pose proof (size_list_to_set_le l) as Hsize.
  assert (get_neighboring_cells cell ai ⊆ list_to_set l) as Hsub.
  { intros c Hc. apply elem_of_list_to_set.
    by apply get_neighboring_cells_among_eight in Hc. }
  apply subseteq_size in Hsub.
  assert (length l = 8%nat) as Hlen by reflexivity. unfold len in *. lia.
Qed.

(** The clue of column 0 on the 1 by 2 game. *)
Lemma nearby_mines_counts_the_mined_neighbours_witness :
  field_ok small_game
  ∧ ∃ n, Minesweeper.nearby_mines small_game (0, 0) = Minesweeper.Returns n
         ∧ 0 ≤ n ≤ 8.
Proof.
  split; [exact small_game_ok|].
  destruct (nearby_mines_counts_the_mined_neighbours small_game (0, 0)
              small_game_ok) as (n & Hrun & _ & Hn).
  exists n. split; [exact Hrun|exact Hn].
Defined.

(** The game of the witnesses for [is_mine]. *)
Lemma is_mine_reads_the_field_with_wrap_around_witness :
  field_ok small_game
  ∧ Minesweeper.is_mine small_game (-1, -1) = Minesweeper.Returns true.
Proof.
  split; [exact small_game_ok|].
  assert ((- Minesweeper.height small_game ≤ ((-1, -1) : Cell).1
           < Minesweeper.height small_game)
          ∧ (- Minesweeper.width small_game ≤ ((-1, -1) : Cell).2
             < Minesweeper.width small_game)) as Hin by (simpl; lia).
  exact (proj1 (is_mine_reads_the_field_with_wrap_around small_game (-1, -1)
                  small_game_ok) Hin).
Defined.

(** ** The game and the engine together *)

Lemma clues_of_ok g cs :
  field_ok g →
  clues_of g cs
  = Some (map (λ c, (c, len (get_neighboring_cells c
                               (init (Minesweeper.height g) (Minesweeper.width g))
                             ∩ Minesweeper.mines g))) cs).
Proof.
  intros Hok. induction cs as [|c cs IH]; simpl; [done|].
  by rewrite (nearby_mines_counts g c Hok), IH.
Qed.

Lemma add_all_records clues ai ai' :
  add_all clues ai = Ok ai' →
  safes ai ⊆ safes ai' ∧ moves_made ai ⊆ moves_made ai'
  ∧ ∀ clue, clue ∈ clues → clue.1 ∈ safes ai' ∧ clue.1 ∈ moves_made ai'.
Proof.
  revert ai. induction clues as [|[cell count] clues IH]; intros ai.
  - intros [= <-]. split; [done|]. split; [done|].
    intros clue Hin. by apply elem_of_nil in Hin.
  - rewrite add_all_cons.
    pose proof (add_knowledge_eq cell count ai) as Hrun. cbv zeta in Hrun.
    rewrite Hrun. simpl. intros Hrest.
    destruct (IH _ Hrest) as (Hs & Hm & Hall).
    destruct (extends_add_knowledge cell count ai _ Hrun) as (Hm1 & Hs1 & _).
    destruct (record_clue_grows cell count ai) as (Hm0 & Hs0 & _).
    destruct (record_clue_records cell count ai) as [Hmoved Hsafe].
    split; [etrans; [exact Hs0|]; etrans; [exact Hs1|exact Hs]|].
    split; [etrans; [exact Hm0|]; etrans; [exact Hm1|exact Hm]|].
    intros clue Hin. apply elem_of_cons in Hin as [->|Hin]; [|by apply Hall].
    simpl. split; [by apply Hs, Hs1|by apply Hm, Hm1].
Qed.

(** X19.  Play on a game as [__init__] builds it: reveal cells that are no
    mines, in any order and any number of times, and hand each clue of
    [nearby_mines] to [add_knowledge] on an engine of the same size.  Then
    no call raises, every revealed cell is in [safes] and in [moves_made],
    no cell of [safes] is a mine of the game and every cell of [mines] is
    one. *)
Theorem playing_the_game_gives_true_deductions (g : Minesweeper.t) (cs : list Cell) :
  field_ok g →
  Forall (λ c, c ∉ Minesweeper.mines g) cs →
  ∃ clues ai,
    clues_of g cs = Some clues
    ∧ add_all clues (init (Minesweeper.height g) (Minesweeper.width g)) = Ok ai
    ∧ (∀ c, c ∈ cs → c ∈ safes ai ∧ c ∈ moves_made ai)
    ∧ safes ai ## Minesweeper.mines g
    ∧ mines ai ⊆ Minesweeper.mines g.
Proof.
  intros Hok Hcs.
  set (h := Minesweeper.height g). set (w := Minesweeper.width g).
  set (clues := map (λ c, (c, len (get_neighboring_cells c (init h w)
                                   ∩ Minesweeper.mines g))) cs).
  assert (Forall (consistent h w (Minesweeper.mines g)) clues) as Hclues.
  { unfold clues. apply Forall_forall. intros clue Hin.
    apply list_elem_of_In, in_map_iff in Hin as (c & <- & Hc).
    rewrite Forall_forall in Hcs. split; simpl.
    - apply Hcs. by apply list_elem_of_In.
    - done. }
  destruct (sound_add_all (Minesweeper.mines g) h w clues (init h w))
    as (ai & Hrun & [Hs Hm _]); [apply sound_init|done|done|].
  exists clues, ai. split; [by apply clues_of_ok|]. split; [done|].
  split; [|done].
  intros c Hc. destruct (add_all_records clues _ _ Hrun) as (_ & _ & Hall).
  apply (Hall (c, len (get_neighboring_cells c (init h w)
                       ∩ Minesweeper.mines g))).
  unfold clues. apply list_elem_of_In, in_map_iff. exists c.
  split; [done|]. by apply list_elem_of_In.
Qed.

(** Column 0 of the 1 by 2 game revealed. *)
Lemma playing_the_game_gives_true_deductions_witness :
  field_ok small_game
  ∧ Forall (λ c, c ∉ Minesweeper.mines small_game) [(0, 0)]
  ∧ ∃ clues ai,
      clues_of small_game [(0, 0)] = Some clues
      ∧ add_all clues (init 1 2) = Ok ai
      ∧ mines ai ⊆ Minesweeper.mines small_game.
Proof.
  assert (Forall (λ c, c ∉ Minesweeper.mines small_game) [(0, 0)]) as Hcs.
  { apply Forall_singleton. by vm_compute. }
  split; [exact small_game_ok|]. split; [exact Hcs|].
  destruct (playing_the_game_gives_true_deductions small_game [(0, 0)]
              small_game_ok Hcs) as (clues & ai & Hclues & Hrun & _ & _ & Hm).
  exists clues, ai. split; [exact Hclues|]. split; [exact Hrun|exact Hm].
Defined.

(** X20.  The neighbour check of lines 273-277: when a call of
    [add_knowledge] with a positive count returns and the known mines among
    the neighbours of the cell are as many as the count, every other
    neighbour is in [safes]. *)
Theorem add_knowledge_completes_the_neighbours (ai : t) (cell : Cell) (count : Z) :
  ∃ ai', add_knowledge cell count ai = Ok ai'
         ∧ (0 < count →
            count = len (get_neighboring_cells cell ai ∩ mines ai') →
            get_neighboring_cells cell ai ∖ mines ai' ⊆ safes ai').
Proof.
  pose proof (add_knowledge_eq cell count ai) as Hrun. cbv zeta in Hrun.
  eexists. split; [exact Hrun|].
  set (a3 := foldl _ _ _) in *.
  assert (same_board a3 ai) as Hb.
  { eapply same_board_trans; [by apply (same_board_foldl mark_exact_match)|].
    eapply same_board_trans; [|apply same_board_record_clue]. done. }
  clearbody a3. clear Hrun.
  assert (mines (mark_completed_neighbors cell count a3) = mines a3) as Hmines.
  { unfold mark_completed_neighbors.
    destruct (decide (0 < count)); [|done].
    destruct (decide (0 < len _)); [|done].
    apply (foldl_keeps (λ a, mines a = mines a3) mark_safe); [|done].
    by intros c a. }
  rewrite Hmines. intros Hpos Hcount c Hc.
  rewrite <- (get_neighboring_cells_same_board cell a3 ai Hb) in Hcount, Hc.
  unfold mark_completed_neighbors, check_which_neighbor_cells_are_safe.
  rewrite (decide_True (P := 0 < count)) by done.
  rewrite (decide_True (P := count = len _)) by done.
  assert (c ∈ get_neighboring_cells cell a3
              ∖ (get_neighboring_cells cell a3 ∩ mines a3)) as Hc'.
  { revert Hc. rewrite !elem_of_difference, elem_of_intersection. tauto. }
  rewrite decide_True.
  - apply foldl_mark_safe_marks. by apply elem_of_elements.
  - apply len_pos_iff. intros Hempty. rewrite Hempty in Hc'.
    by apply not_elem_of_empty in Hc'.
Qed.

(** The clue 1 for column 2 of the 1 by 4 board, with the mine at column 1
    known and column 3 played. *)
Lemma add_knowledge_completes_the_neighbours_witness :
  ∃ ai', add_knowledge (0, 2) 1 settled_row = Ok ai'
         ∧ get_neighboring_cells (0, 2) settled_row ∖ mines ai' ⊆ safes ai'.
Proof.
  destruct (add_knowledge_completes_the_neighbours settled_row (0, 2) 1)
    as (ai' & Hrun & Hsafe).
  exists ai'. split; [exact Hrun|]. apply Hsafe; [lia|].
  vm_compute in Hrun. injection Hrun as <-. by vm_compute.
Defined.
